(** * spannerclosecheck: the defer-only analyzer

    A shallow embedding of [pkg/analyzer/defer_only.go] (and of the
    descriptor table next to it) together with the properties of the
    detection engine: the type registry, the per-function scan, the coverage
    decision, the exemptions and the nolint filter.

    The analyzer runs over the SSA form built by [golang.org/x/tools/go/ssa].
    SSA nodes are Go pointers; here a pointer is an identifier and the nodes
    live in a table (the [Heap]), so that identity comparisons ([result ==
    val]) and the def-use cycles of the representation are kept. *)

From Stdlib Require Import ZArith Bool.
From stdpp Require Import gmap strings list sorting.

Local Open Scope string_scope.
Local Open Scope list_scope.

(** ** Package [strings] of the Go standard library *)

Module strings.

(** [strings.HasPrefix]. *)
Definition HasPrefix (s prefix : string) : bool := String.prefix prefix s.

(** [strings.Contains(s, substr)]: [substr] occurs at some offset of [s]. *)
Fixpoint Contains (s substr : string) : bool :=
  if HasPrefix s substr then true
  else match s with
       | EmptyString => false
       | String _ s' => Contains s' substr
       end.

(** [strings.HasSuffix(s, suffix)]:
    [len(s) >= len(suffix) && s[len(s)-len(suffix):] == suffix]. *)
Definition HasSuffix (s suffix : string) : bool :=
  (String.length suffix <=? String.length s)%nat &&
  String.eqb
    (String.substring (String.length s - String.length suffix)
                      (String.length suffix) s)
    suffix.

End strings.

(** ** Package [go/token]: positions and the file set

    The position service is a collaborator of the analyzer: a position is
    an integer, [FileSet.File] finds the file a position belongs to (or
    nothing), and a file knows its name and the line of each position.
    A [token.File] pointer is compared by pointer, hence the identifier. *)

Module token.

Definition Pos := Z.
Definition NoPos : Pos := 0%Z.

(** Identity of a [token.File] pointer. *)
Definition FilePtr := nat.

Record FileSet := {
  File : Pos -> option FilePtr;       (* nil when no file holds the position *)
  Name : FilePtr -> string;           (* Name of a token.File *)
  Line : FilePtr -> Pos -> nat        (* Line of a token.File *)
}.

End token.

(** ** Package [go/ast]: files and their comments *)

Module ast.

Record Comment := {
  Slash : token.Pos;                  (* position of the comment's first character *)
  Text : string
}.

(** A comment group is a non-empty run of comments; its position is the
    position of its first comment. *)
Record CommentGroup := {
  cg_head : Comment;
  cg_tail : list Comment
}.

Definition List (cg : CommentGroup) : list Comment := cg_head cg :: cg_tail cg.
Definition cgPos (cg : CommentGroup) : token.Pos := Slash (cg_head cg).

Record File := {
  Package : token.Pos;                (* f.Pos(): position of the package keyword *)
  Comments : list CommentGroup
}.

Definition Pos (f : File) : token.Pos := Package f.

End ast.

(** ** Package [go/types]: the part of the type language the analyzer inspects *)

Module types.

(** Identity of a [types.Named] pointer. *)
Definition NamedPtr := nat.

Inductive Type_ :=
| Named (n : NamedPtr)
| Pointer (elem : Type_)
| Other.                              (* basic, tuple, signature, ... *)

(** A package: its import path and the types of the objects of its scope
    ([pkg.Pkg.Scope().Lookup(name)] followed by [obj.Type()]). *)
Record Package := {
  Path : string;
  Scope : gmap string Type_
}.

End types.

(** ** Package [go/ssa]: values, instructions and their use sites *)

Module ssa.

(** Identity of an SSA node (value or instruction). *)
Definition Ptr := nat.

(** What every [ssa.Value] offers. [Referrers] is [None] for the values
    whose [Referrers()] is nil. *)
Record Value := {
  VName : string;
  VType : types.Type_;
  VPos : token.Pos;
  Referrers : option (list Ptr)
}.

(** [ssa.CallCommon]: [Method] is the name of the invoked interface
    method ([Method.Name()]) when the call is an interface invocation. *)
Record CallCommon := {
  CValue : option Ptr;
  Method : option string;
  Args : list Ptr
}.

Inductive Node :=
| Call (v : Value) (c : CallCommon)
| Extract (v : Value) (Tuple : option Ptr) (Index : nat)
| ValueInstr (v : Value)              (* Alloc, UnOp, Phi, MakeInterface, ... *)
| Defer (c : CallCommon) (pos : token.Pos)
| Return (Results : list Ptr) (pos : token.Pos)
| Instr (operands : list Ptr) (pos : token.Pos)   (* Store, Jump, If, Go, ... *)
| NonInstr (v : Value).               (* Function, Parameter, Const, Global, ... *)

(** The node table: every pointer designates a node. *)
Definition Heap := Ptr -> Node.

(** The type assertion [x.(ssa.Value)]. *)
Definition asValue (n : Node) : option Value :=
  match n with
  | Call v _ | Extract v _ _ | ValueInstr v | NonInstr v => Some v
  | Defer _ _ | Return _ _ | Instr _ _ => None
  end.

(** [Pos()], which values and instructions both have. *)
Definition Pos (n : Node) : token.Pos :=
  match n with
  | Call v _ | Extract v _ _ | ValueInstr v | NonInstr v => VPos v
  | Defer _ p | Return _ p | Instr _ p => p
  end.

(** The values an instruction consumes. *)
Definition callOperands (c : CallCommon) : list Ptr :=
  match CValue c with Some f => f :: Args c | None => Args c end.

Definition Operands (n : Node) : list Ptr :=
  match n with
  | Call _ c | Defer c _ => callOperands c
  | Extract _ (Some t) _ => [t]
  | Extract _ None _ => []
  | Return rs _ => rs
  | Instr ops _ => ops
  | ValueInstr _ | NonInstr _ => []
  end.

Record Function := {
  FPos : token.Pos;
  Blocks : list (list Ptr)            (* the instructions of each basic block *)
}.

(** The result of the [buildssa] pass, as far as the analyzer reads it. *)
Record SSA := {
  AllPackages : list types.Package;   (* pssa.Pkg.Prog.AllPackages() *)
  SrcFuncs : list (option Function)   (* a nil entry is [None] *)
}.

End ssa.

(** ** Package [go/analysis]: the pass and its diagnostics *)

Module analysis.

Record Diagnostic := {
  Pos : token.Pos;
  Message : string
}.

Record Pass := {
  Fset : token.FileSet;
  Files : list ast.File;
  ResultOf_buildssa : ssa.SSA
}.

(** [pass.Reportf(pos, format, args...)] hands one more diagnostic to the
    driver; the diagnostics reported so far are threaded through. *)
Definition Report (d : Diagnostic) (ds : list Diagnostic) : list Diagnostic :=
  ds ++ [d].

End analysis.

(** ** Package [analyzer] *)

(** *** The descriptor table *)

Record ResourceType := {
  Name : string;
  CloseMethod : string
}.

Definition CloseMessage (rt : ResourceType) : string :=
  Name rt ++ "." ++ CloseMethod rt ++ "() must be deferred".

Definition spannerResourceTypes : gmap string ResourceType :=
  <["ReadOnlyTransaction" := {| Name := "ReadOnlyTransaction"; CloseMethod := "Close" |}]>
  (<["BatchReadOnlyTransaction" := {| Name := "BatchReadOnlyTransaction"; CloseMethod := "Close" |}]>
  (<["RowIterator" := {| Name := "RowIterator"; CloseMethod := "Stop" |}]> ∅)).

(** *** The registry of Spanner types: [map[*types.Named]string] *)

Definition registerType (pkg : types.Package) (name : string)
    (spannerTypes : gmap types.NamedPtr string) : gmap types.NamedPtr string :=
  match types.Scope pkg !! name with
  | Some (types.Named named) => <[named := name]> spannerTypes
  | Some _ => spannerTypes
  | None => spannerTypes
  end.

Definition getSpannerType (t : types.Type_)
    (spannerTypes : gmap types.NamedPtr string) : string :=
  (* Strip pointer *)
  let t := match t with types.Pointer elem => elem | _ => t end in
  (* Check if it's a named Spanner type *)
  match t with
  | types.Named named =>
      match spannerTypes !! named with
      | Some name => name
      | None => ""
      end
  | _ => ""
  end.

(** *** The coverage decision and the exemptions *)

(** The inner loop of [hasDeferredClose], over the referrers of a Close or
    Stop call: is one of them a defer. *)
Fixpoint hasDeferredClose_callRefs (h : ssa.Heap) (callRefs : list ssa.Ptr) : bool :=
  match callRefs with
  | [] => false
  | callRef :: rest =>
      match h callRef with
      | ssa.Defer _ _ => true
      | _ => hasDeferredClose_callRefs h rest
      end
  end.

(** The loop of [hasDeferredClose] over the referrers of the value. *)
Fixpoint hasDeferredClose_refs (h : ssa.Heap) (refs : list ssa.Ptr) : bool :=
  match refs with
  | [] => false
  | ref :: rest =>
      match h ref with
      | ssa.Defer _ _ =>
          (* This value is used directly in a defer *)
          true
      | ssa.Call call c =>
          match ssa.Method c with
          | Some methodName =>
              if String.eqb methodName "Close" || String.eqb methodName "Stop" then
                match ssa.Referrers call with
                | Some callRefs =>
                    if hasDeferredClose_callRefs h callRefs then true
                    else hasDeferredClose_refs h rest
                | None => hasDeferredClose_refs h rest
                end
              else hasDeferredClose_refs h rest
          | None => hasDeferredClose_refs h rest
          end
      | _ => hasDeferredClose_refs h rest
      end
  end.

(** [hasDeferredClose(val)]; [val] is a pointer to a node that is a value. *)
Definition hasDeferredClose (h : ssa.Heap) (val : ssa.Ptr) : bool :=
  match ssa.asValue (h val) with
  | Some v =>
      match ssa.Referrers v with
      | None => false
      | Some refs => hasDeferredClose_refs h refs
      end
  | None => false
  end.

(** [isFromSingle(val)]. *)
Definition isFromSingle (h : ssa.Heap) (val : ssa.Ptr) : bool :=
  match h val with
  | ssa.Call _ c =>
      (* Check method call (for interface-based calls) *)
      if match ssa.Method c with
         | Some methodName => String.eqb methodName "Single"
         | None => false
         end
      then true
      else
        (* Check function value call (for concrete type calls) *)
        match ssa.CValue c with
        | Some f =>
            match ssa.asValue (h f) with
            | Some fv => String.eqb (ssa.VName fv) "Single"
            | None => false
            end
        | None => false
        end
  | _ => false
  end.

(** The loop over [ret.Results]: is [val] one of them, by identity. *)
Fixpoint isReturned_results (results : list ssa.Ptr) (val : ssa.Ptr) : bool :=
  match results with
  | [] => false
  | result :: rest =>
      if Nat.eqb result val then true else isReturned_results rest val
  end.

(** The loop of [isReturnedFromFunction] over the referrers. *)
Fixpoint isReturned_refs (h : ssa.Heap) (refs : list ssa.Ptr) (val : ssa.Ptr) : bool :=
  match refs with
  | [] => false
  | ref :: rest =>
      match h ref with
      | ssa.Return results _ =>
          if isReturned_results results val then true
          else isReturned_refs h rest val
      | _ => isReturned_refs h rest val
      end
  end.

(** [isReturnedFromFunction(fn, val)]; the function itself is not consulted. *)
Definition isReturnedFromFunction (h : ssa.Heap) (fn : ssa.Function) (val : ssa.Ptr) : bool :=
  match ssa.asValue (h val) with
  | Some v =>
      match ssa.Referrers v with
      | None => false
      | Some refs => isReturned_refs h refs val
      end
  | None => false
  end.

(** *** The suppression filter *)

(** The test of [hasFileLevelNolint] on the text of one comment. *)
Definition fileLevelDirective (text : string) : bool :=
  strings.Contains text "nolint:spannerclosecheck" ||
  strings.Contains text "nolint:all".

(** The test of [hasNolintDirective] on the text of one comment.
    Supports: //nolint:spannerclosecheck, //nolint:all, //nolint *)
Definition nolintDirective (text : string) : bool :=
  strings.Contains text "nolint:spannerclosecheck" ||
  strings.Contains text "nolint:all" ||
  (strings.Contains text "nolint" && negb (strings.Contains text ":")).

(** The loop over [cg.List], returning at the first comment that passes. *)
Fixpoint anyComment (test : string -> bool) (cs : list ast.Comment) : bool :=
  match cs with
  | [] => false
  | c :: rest => if test (ast.Text c) then true else anyComment test rest
  end.

(** The loop of [hasFileLevelNolint] over the comment groups of one file:
    it stops at the first group that starts after line 10. *)
Fixpoint hasFileLevelNolint_groups (fset : token.FileSet) (file : token.FilePtr)
    (cgs : list ast.CommentGroup) : bool :=
  match cgs with
  | [] => false
  | cg :: rest =>
      let commentLine := token.Line fset file (ast.cgPos cg) in
      if (10 <? commentLine)%nat then false   (* break *)
      else if anyComment fileLevelDirective (ast.List cg) then true
      else hasFileLevelNolint_groups fset file rest
  end.

(** The loop of [hasFileLevelNolint] over [pass.Files]. *)
Fixpoint hasFileLevelNolint_files (fset : token.FileSet) (file : token.FilePtr)
    (fs : list ast.File) : bool :=
  match fs with
  | [] => false
  | f :: rest =>
      (* Check if this is the right file *)
      match token.File fset (ast.Pos f) with
      | Some file' =>
          if Nat.eqb file' file then
            if hasFileLevelNolint_groups fset file (ast.Comments f) then true
            else hasFileLevelNolint_files fset file rest
          else hasFileLevelNolint_files fset file rest
      | None => hasFileLevelNolint_files fset file rest
      end
  end.

Definition hasFileLevelNolint (pass : analysis.Pass) (pos : token.Pos) : bool :=
  match token.File (analysis.Fset pass) pos with
  | None => false
  | Some file => hasFileLevelNolint_files (analysis.Fset pass) file (analysis.Files pass)
  end.

Definition isGeneratedFile (pass : analysis.Pass) (pos : token.Pos) : bool :=
  match token.File (analysis.Fset pass) pos with
  | None => false
  | Some file =>
      let filename := token.Name (analysis.Fset pass) file in
      (* Check for common generated file patterns *)
      if strings.HasSuffix filename ".yo.go" then true
      else if strings.HasSuffix filename ".pb.go" then true
      else if strings.HasSuffix filename "_gen.go" then true
      else if strings.Contains filename "generated" then true
      (* Check for file-level nolint directive *)
      else if hasFileLevelNolint pass pos then true
      else false
  end.

(** The loop of [hasNolintDirective] over the comment groups of one file. *)
Fixpoint hasNolintDirective_groups (fset : token.FileSet) (file : token.FilePtr)
    (line : nat) (cgs : list ast.CommentGroup) : bool :=
  match cgs with
  | [] => false
  | cg :: rest =>
      let commentLine := token.Line fset file (ast.cgPos cg) in
      (* Check if comment is on the same line or the line before *)
      if Nat.eqb commentLine line || Z.eqb (Z.of_nat commentLine) (Z.of_nat line - 1) then
        if anyComment nolintDirective (ast.List cg) then true
        else hasNolintDirective_groups fset file line rest
      else hasNolintDirective_groups fset file line rest
  end.

(** The loop of [hasNolintDirective] over [pass.Files]. *)
Fixpoint hasNolintDirective_files (fset : token.FileSet) (file : token.FilePtr)
    (line : nat) (fs : list ast.File) : bool :=
  match fs with
  | [] => false
  | f :: rest =>
      match token.File fset (ast.Pos f) with
      | Some file' =>
          if Nat.eqb file' file then
            if hasNolintDirective_groups fset file line (ast.Comments f) then true
            else hasNolintDirective_files fset file line rest
          else hasNolintDirective_files fset file line rest
      | None => hasNolintDirective_files fset file line rest
      end
  end.

Definition hasNolintDirective (pass : analysis.Pass) (pos : token.Pos) : bool :=
  match token.File (analysis.Fset pass) pos with
  | None => false
  | Some file =>
      (* Find the line containing this position *)
      let line := token.Line (analysis.Fset pass) file pos in
      hasNolintDirective_files (analysis.Fset pass) file line (analysis.Files pass)
  end.

(** *** The scan *)

(** The position a finding is reported at: for Extract, the tuple call's
    position. *)
Definition reportPos (h : ssa.Heap) (val : ssa.Ptr) : token.Pos :=
  match h val with
  | ssa.Extract _ (Some tuple) _ => ssa.Pos (h tuple)
  | n => ssa.Pos n
  end.

(** The body of the loops of [checkFunc], for one instruction. *)
Definition checkInstr (pass : analysis.Pass) (h : ssa.Heap) (fn : ssa.Function)
    (spannerTypes : gmap types.NamedPtr string) (instr : ssa.Ptr)
    (ds : list analysis.Diagnostic) : list analysis.Diagnostic :=
  (* Check if this instruction produces a Spanner type value *)
  match ssa.asValue (h instr) with
  | Some val =>
      let typeName := getSpannerType (ssa.VType val) spannerTypes in
      if negb (String.eqb typeName "") then
        (* Skip ReadOnlyTransaction from Single() - it auto-releases *)
        if String.eqb typeName "ReadOnlyTransaction" && isFromSingle h instr then ds
        (* Skip RowIterator that's returned from a function *)
        else if String.eqb typeName "RowIterator" && isReturnedFromFunction h fn instr then ds
        (* Found a Spanner resource - check if it has a deferred Close/Stop *)
        else if negb (hasDeferredClose h instr) then
          let pos := reportPos h instr in
          (* Check for nolint directive *)
          if negb (hasNolintDirective pass pos) then
            analysis.Report
              {| analysis.Pos := pos;
                 analysis.Message := typeName ++ ".Close() must be deferred" |} ds
          else ds
        else ds
      else ds
  | None => ds
  end.

Definition checkBlock (pass : analysis.Pass) (h : ssa.Heap) (fn : ssa.Function)
    (spannerTypes : gmap types.NamedPtr string) (instrs : list ssa.Ptr)
    (ds : list analysis.Diagnostic) : list analysis.Diagnostic :=
  fold_left (fun ds instr => checkInstr pass h fn spannerTypes instr ds) instrs ds.

Definition checkFunc (pass : analysis.Pass) (h : ssa.Heap) (fn : option ssa.Function)
    (spannerTypes : gmap types.NamedPtr string)
    (ds : list analysis.Diagnostic) : list analysis.Diagnostic :=
  match fn with
  | None => ds
  | Some fn =>
      (* Skip generated files (e.g., .yo.go files) *)
      if isGeneratedFile pass (ssa.FPos fn) then ds
      else
        (* Check all instructions for Spanner resource allocations *)
        fold_left (fun ds block => checkBlock pass h fn spannerTypes block ds)
                  (ssa.Blocks fn) ds
  end.

(** *** The analyzer *)

(** The loop over [AllPackages()]: the first package with the Spanner path
    registers the three types and ends the loop. *)
Fixpoint registerSpanner (pkgs : list types.Package)
    (spannerTypes : gmap types.NamedPtr string) : gmap types.NamedPtr string :=
  match pkgs with
  | [] => spannerTypes
  | pkg :: rest =>
      if String.eqb (types.Path pkg) "cloud.google.com/go/spanner" then
        registerType pkg "RowIterator"
          (registerType pkg "BatchReadOnlyTransaction"
             (registerType pkg "ReadOnlyTransaction" spannerTypes))
      else registerSpanner rest spannerTypes
  end.

(** What [deferOnlyAnalyzer] returns: the result and the error, both nil
    on every path, next to the diagnostics it reported. *)
Record Outcome := {
  result : option unit;
  err : option string;
  reported : list analysis.Diagnostic
}.

Definition deferOnlyAnalyzer (pass : analysis.Pass) (h : ssa.Heap) : Outcome :=
  let pssa := analysis.ResultOf_buildssa pass in
  (* Map to store Spanner types *)
  let spannerTypes := registerSpanner (ssa.AllPackages pssa) ∅ in
  if Nat.eqb (size spannerTypes) 0 then
    {| result := None; err := None; reported := [] |}
  else
    (* Check each function *)
    {| result := None; err := None;
       reported := fold_left (fun ds fn => checkFunc pass h fn spannerTypes ds)
                             (ssa.SrcFuncs pssa) [] |}.

(** * Vocabulary of the properties *)

(** ** The def-use graph *)

(** The use sites of a value: its referrers, none when [Referrers()] is nil
    or when the node is not a value. *)
Definition useSites (h : ssa.Heap) (val : ssa.Ptr) : list ssa.Ptr :=
  match ssa.asValue (h val) with
  | Some v => default [] (ssa.Referrers v)
  | None => []
  end.

Definition isDefer (h : ssa.Heap) (p : ssa.Ptr) : Prop :=
  ∃ c pos, h p = ssa.Defer c pos.

(** (a) the value is an operand of a defer: a defer is among its use sites. *)
Definition directlyDeferred (h : ssa.Heap) (val : ssa.Ptr) : Prop :=
  ∃ ref, ref ∈ useSites h val ∧ isDefer h ref.

(** (b) a use site is a call that invokes an interface method (the
    [Method] of the call is set) whose name is accepted by [cleanup], and a
    defer is among the use sites of that call. A call of a concrete
    method, which has no [Method], is none. *)
Definition deferredMethodCall (h : ssa.Heap) (val : ssa.Ptr)
    (cleanup : string → Prop) : Prop :=
  ∃ ref call c methodName callRef,
    ref ∈ useSites h val ∧ h ref = ssa.Call call c ∧
    ssa.Method c = Some methodName ∧ cleanup methodName ∧
    callRef ∈ useSites h ref ∧ isDefer h callRef.

(** A candidate: an instruction that is a value of a registered type. *)
Definition candidate (h : ssa.Heap) (spannerTypes : gmap types.NamedPtr string)
    (instr : ssa.Ptr) (typeName : string) : Prop :=
  ∃ v, ssa.asValue (h instr) = Some v ∧
       getSpannerType (ssa.VType v) spannerTypes = typeName ∧ typeName ≠ "".

(** The two exemptions of [checkFunc]. *)
Definition exempt (h : ssa.Heap) (fn : ssa.Function) (instr : ssa.Ptr)
    (typeName : string) : Prop :=
  (typeName = "ReadOnlyTransaction" ∧ isFromSingle h instr = true) ∨
  (typeName = "RowIterator" ∧ isReturnedFromFunction h fn instr = true).

(** The instructions of a function, in scan order. *)
Definition instrsOf (fn : ssa.Function) : list ssa.Ptr := concat (ssa.Blocks fn).

(** The invariant of the SSA form that relates operands and referrers: an
    instruction of the function is a use site of each of its operands that
    is itself an instruction of the function. *)
Definition defUseConsistent (h : ssa.Heap) (fn : ssa.Function) : Prop :=
  ∀ i x, i ∈ instrsOf fn → x ∈ instrsOf fn →
         x ∈ ssa.Operands (h i) → i ∈ useSites h x.

(** One referrer establishes coverage when it is a defer, or a deferred
    Close or Stop call. *)
Definition coveringRef (h : ssa.Heap) (ref : ssa.Ptr) : Prop :=
  isDefer h ref ∨
  ∃ call c methodName callRef,
    h ref = ssa.Call call c ∧ ssa.Method c = Some methodName ∧
    (methodName = "Close" ∨ methodName = "Stop") ∧
    callRef ∈ useSites h ref ∧ isDefer h callRef.

(** ** Coverage, in the words of the specification and of the code *)

(** Coverage as the specification words it: (a) the value is deferred
    directly, or (b) a use site is a call of the cleanup method of the
    candidate's own descriptor, and that call is deferred. *)
Definition cleanupMethodOf (typeName methodName : string) : Prop :=
  ∃ rt, spannerResourceTypes !! typeName = Some rt ∧ CloseMethod rt = methodName.

Definition coveredByDescriptor (h : ssa.Heap) (val : ssa.Ptr) (typeName : string) : Prop :=
  directlyDeferred h val ∨ deferredMethodCall h val (cleanupMethodOf typeName).

(** Coverage as [hasDeferredClose] decides it: the invoked interface
    method may be Close or Stop, whatever the type of the candidate. *)
Definition coveredByCloseOrStop (h : ssa.Heap) (val : ssa.Ptr) : Prop :=
  directlyDeferred h val ∨
  deferredMethodCall h val (λ methodName, methodName = "Close" ∨ methodName = "Stop").

(** ** Comments *)

(** A comment group that silences the findings of line [line] of [file]:
    it starts on that line or on the line before, and one of its comments
    carries a directive. *)
Definition silencingGroup (fset : token.FileSet) (file : token.FilePtr)
    (line : nat) (cg : ast.CommentGroup) : Prop :=
  (token.Line fset file (ast.cgPos cg) = line ∨
   S (token.Line fset file (ast.cgPos cg)) = line) ∧
  ∃ c, c ∈ ast.List cg ∧ nolintDirective (ast.Text c) = true.

(** The comments of a file in the order of the source: the lines of the
    comments, group after group, never decrease. *)
Definition commentLines (fset : token.FileSet) (file : token.FilePtr)
    (f : ast.File) : list nat :=
  flat_map (λ cg, map (λ c, token.Line fset file (ast.Slash c)) (ast.List cg))
           (ast.Comments f).

Definition inSourceOrder (fset : token.FileSet) (file : token.FilePtr)
    (f : ast.File) : Prop :=
  StronglySorted le (commentLines fset file f).

(** ** Concrete programs

    Small SSA graphs and passes on which the analyzer is run. Positions
    encode line and column as [100 * line + column]; position 0 and below
    belong to no file. *)

Module Fixture.

Definition fset : token.FileSet :=
  {| token.File := λ p, if (0 <? p)%Z then Some 0%nat else None;
     token.Name := λ _, "main.go";
     token.Line := λ _ p, Z.to_nat (p / 100) |}.

(** A file set that knows no file at all. *)
Definition fsetNoFiles : token.FileSet :=
  {| token.File := λ _, None;
     token.Name := λ _, "";
     token.Line := λ _ _, 0%nat |}.

(** The mock Spanner package of the test data. *)
Definition spannerPkg : types.Package :=
  {| types.Path := "cloud.google.com/go/spanner";
     types.Scope :=
       <["ReadOnlyTransaction" := types.Named 1]>
       (<["BatchReadOnlyTransaction" := types.Named 2]>
       (<["RowIterator" := types.Named 3]>
       (<["Client" := types.Named 4]> ∅))) |}.

Definition contextPkg : types.Package :=
  {| types.Path := "context"; types.Scope := <["Context" := types.Named 9]> ∅ |}.

Definition spannerTypes : gmap types.NamedPtr string :=
  registerSpanner [contextPkg; spannerPkg] ∅.

Definition func (name : string) : ssa.Node :=
  ssa.NonInstr {| ssa.VName := name; ssa.VType := types.Other;
                  ssa.VPos := token.NoPos; ssa.Referrers := None |}.

Definition heapOf (nodes : list ssa.Node) : ssa.Heap :=
  λ p, nth p nodes (func "").

Definition reg (name : string) (t : types.Type_) (pos : token.Pos)
    (refs : list ssa.Ptr) : ssa.Value :=
  {| ssa.VName := name; ssa.VType := t; ssa.VPos := pos; ssa.Referrers := Some refs |}.

Definition static (f : ssa.Ptr) (args : list ssa.Ptr) : ssa.CallCommon :=
  {| ssa.CValue := Some f; ssa.Method := None; ssa.Args := args |}.

Definition invoke (recv : ssa.Ptr) (method : string) (args : list ssa.Ptr) : ssa.CallCommon :=
  {| ssa.CValue := Some recv; ssa.Method := Some method; ssa.Args := args |}.

(** [iter := txn.Query(ctx, stmt); _ = iter]: an iterator nobody stops. *)
Definition hLeak : ssa.Heap :=
  heapOf [ func "Query";
           ssa.Call (reg "t0" (types.Pointer (types.Named 3)) 2413%Z []) (static 0 []) ].
Definition fnLeak : ssa.Function := {| ssa.FPos := 2306%Z; ssa.Blocks := [[1%nat]] |}.

(** [iter := txn.Query(ctx, stmt); defer release(closer.Close(iter))],
    where [closer] is of an interface type with a method [Close]. *)
Definition hCloser : ssa.Heap :=
  heapOf [ func "Query";
           ssa.Call (reg "t0" (types.Pointer (types.Named 3)) 2413%Z [2%nat]) (static 0 []);
           ssa.Call (reg "t1" types.Other 2519%Z [3%nat]) (invoke 4 "Close" [1%nat]);
           ssa.Defer (static 5 [2%nat]) 2505%Z;
           ssa.NonInstr (reg "closer" types.Other 2320%Z [2%nat]);
           func "release" ].
Definition fnCloser : ssa.Function := {| ssa.FPos := 2306%Z; ssa.Blocks := [[1; 2; 3]%nat] |}.

(** [iter := txn.Query(ctx, stmt); iter.Stop()]: Stop is called, not
    deferred. *)
Definition hCalled : ssa.Heap :=
  heapOf [ func "Query";
           ssa.Call (reg "t0" (types.Pointer (types.Named 3)) 2413%Z [2%nat]) (static 0 []);
           ssa.Call (reg "t1" types.Other 2511%Z []) (static 3 [1%nat]);
           func "Stop" ].
Definition fnCalled : ssa.Function := {| ssa.FPos := 2306%Z; ssa.Blocks := [[1; 2]%nat] |}.

(** [txn, err := client.BatchReadOnlyTransaction(ctx, tb)], never closed:
    the handle is extracted from the tuple the call returns. *)
Definition hTuple : ssa.Heap :=
  heapOf [ func "BatchReadOnlyTransaction";
           ssa.Call (reg "t0" types.Other 2423%Z [2; 3]%nat) (static 0 []);
           ssa.Extract (reg "t1" (types.Pointer (types.Named 2)) token.NoPos []) (Some 1%nat) 0;
           ssa.Extract (reg "t2" types.Other token.NoPos []) (Some 1%nat) 1 ].
Definition fnTuple : ssa.Function := {| ssa.FPos := 2306%Z; ssa.Blocks := [[1; 2; 3]%nat] |}.

(** [txn := client.Single()], a concrete method call. *)
Definition hSingle : ssa.Heap :=
  heapOf [ func "Single";
           ssa.Call (reg "t0" (types.Pointer (types.Named 1)) 2412%Z []) (static 0 []) ].
Definition fnSingle : ssa.Function := {| ssa.FPos := 2306%Z; ssa.Blocks := [[1%nat]] |}.

(** [return txn.Query(ctx, stmt)]. *)
Definition hReturn : ssa.Heap :=
  heapOf [ func "Query";
           ssa.Call (reg "t0" (types.Pointer (types.Named 3)) 2412%Z [2%nat]) (static 0 []);
           ssa.Return [1%nat] 2405%Z ].
Definition fnReturn : ssa.Function := {| ssa.FPos := 2306%Z; ssa.Blocks := [[1; 2]%nat] |}.

(** [txn := client.ReadOnlyTransaction(); defer log(txn)]. *)
Definition hDeferLog : ssa.Heap :=
  heapOf [ func "ReadOnlyTransaction";
           ssa.Call (reg "t0" (types.Pointer (types.Named 1)) 2412%Z [2%nat]) (static 0 []);
           ssa.Defer (static 3 [1%nat]) 2505%Z;
           func "log" ].
Definition fnDeferLog : ssa.Function := {| ssa.FPos := 2306%Z; ssa.Blocks := [[1; 2]%nat] |}.

Definition comment (pos : token.Pos) (text : string) : ast.Comment :=
  {| ast.Slash := pos; ast.Text := text |}.

Definition group (c : ast.Comment) (cs : list ast.Comment) : ast.CommentGroup :=
  {| ast.cg_head := c; ast.cg_tail := cs |}.

Definition passWith (fs : token.FileSet) (cgs : list ast.CommentGroup)
    (pkgs : list types.Package) (fns : list ssa.Function) : analysis.Pass :=
  {| analysis.Fset := fs;
     analysis.Files := [ {| ast.Package := 101%Z; ast.Comments := cgs |} ];
     analysis.ResultOf_buildssa :=
       {| ssa.AllPackages := pkgs; ssa.SrcFuncs := Some <$> fns |} |}.

(** No comments at all. *)
Definition passPlain (fns : list ssa.Function) : analysis.Pass :=
  passWith fset [] [contextPkg; spannerPkg] fns.

(** A bare directive at the end of line 24. *)
Definition passBare : analysis.Pass :=
  passWith fset [group (comment 2450%Z "//nolint") []] [contextPkg; spannerPkg] [fnLeak].

(** A two-line comment on lines 22 and 23, the directive on the second. *)
Definition passTwoLines : analysis.Pass :=
  passWith fset
    [group (comment 2202%Z "// released by the caller")
           [comment 2302%Z "//nolint:spannerclosecheck"]]
    [contextPkg; spannerPkg] [fnLeak].

(** A targeted directive on line 2 of the file. *)
Definition passFileLevel : analysis.Pass :=
  passWith fset [group (comment 201%Z "//nolint:spannerclosecheck") []]
           [contextPkg; spannerPkg] [fnLeak].

(** Position metadata is missing everywhere. *)
Definition passNoFiles : analysis.Pass :=
  passWith fsetNoFiles [] [contextPkg; spannerPkg] [fnLeak].

(** The unit under analysis does not import Spanner. *)
Definition passNoSpanner : analysis.Pass :=
  passWith fset [] [contextPkg] [fnLeak].

End Fixture.

(** * The rest of the program *)

(** ** Package [main]: the version flag *)

Module cmd.

(** Version information *)
Definition Version : string := "v0.1.0".
Definition BuildDate : string := "unknown".
Definition GitCommit : string := "unknown".

Definition newline : string := String (Ascii.ascii_of_nat 10) EmptyString.

(** What a run of the command comes to: it printed to the standard output
    and left through [os.Exit], or it handed over to [singlechecker.Main]. *)
Inductive Run :=
| Exit (stdout : string) (code : Z)
| SingleChecker.

(** The loop of [main] over [os.Args], the name of the program included. *)
Fixpoint main_args (args : list string) : Run :=
  match args with
  | [] => SingleChecker
  | arg :: rest =>
      if String.eqb arg "-version" || String.eqb arg "--version" then
        Exit ("spannerclosecheck " ++ Version ++ newline ++
              "Build date: " ++ BuildDate ++ newline ++
              "Git commit: " ++ GitCommit ++ newline) 0
      else main_args rest
  end.

Definition main (osArgs : list string) : Run := main_args osArgs.

End cmd.

(** ** The earlier analyzer of [defer_only.go]

    The file also holds the analyzer as it was before the def-use scan: it
    looks at the stores of a function and at the receivers of its deferred
    Close and Stop calls. It needs to tell stores and loads apart, hence a
    node type of its own; values, calls, types and passes are the same. *)

Module legacy.

Inductive Node :=
| Call (v : ssa.Value) (c : ssa.CallCommon)
| Extract (v : ssa.Value) (Tuple : option ssa.Ptr) (Index : nat)
| UnOp (v : ssa.Value) (X : ssa.Ptr)       (* a load when the operator is the star *)
| ValueInstr (v : ssa.Value)
| Defer (Call : ssa.CallCommon) (pos : token.Pos)
| Store (Addr Val : ssa.Ptr) (pos : token.Pos)
| Instr (pos : token.Pos)
| NonInstr (v : ssa.Value).

Definition Heap := ssa.Ptr -> Node.

Definition asValue (n : Node) : option ssa.Value :=
  match n with
  | Call v _ | Extract v _ _ | UnOp v _ | ValueInstr v | NonInstr v => Some v
  | Defer _ _ | Store _ _ _ | Instr _ => None
  end.

(** [deferredVars[k]] of a [map[ssa.Value]bool]: false for a missing key. *)
Definition isDeferredVar (deferredVars : gmap ssa.Ptr bool) (k : ssa.Ptr) : bool :=
  default false (deferredVars !! k).

(** First pass, for one instruction: collect the variables with deferred
    Close/Stop calls. *)
Definition collectDeferred (h : Heap) (instr : ssa.Ptr)
    (deferredVars : gmap ssa.Ptr bool) : gmap ssa.Ptr bool :=
  match h instr with
  | Defer call _ =>
      match ssa.Method call with
      | Some methodName =>
          if String.eqb methodName "Close" || String.eqb methodName "Stop" then
            (* Mark the value being closed as deferred *)
            match ssa.CValue call with
            | Some value =>
                let deferredVars := <[value := true]> deferredVars in
                (* If it's a load, mark the address too *)
                match h value with
                | UnOp _ X => <[X := true]> deferredVars
                | _ => deferredVars
                end
            | None => deferredVars
            end
          else deferredVars
      | None => deferredVars
      end
  | _ => deferredVars
  end.

(** The type name the second pass works out for a stored value. *)
Definition storedTypeName (h : Heap) (spannerTypes : gmap types.NamedPtr string)
    (Val : ssa.Ptr) : string :=
  let typeName := "" in
  (* Case 1: Direct call result *)
  let typeName :=
    match h Val with
    | Call call _ => getSpannerType (ssa.VType call) spannerTypes
    | _ => typeName
    end in
  (* Case 2: Extract from tuple (for funcs returning (val, error)) *)
  let typeName :=
    match h Val with
    | Extract extract _ _ => getSpannerType (ssa.VType extract) spannerTypes
    | _ => typeName
    end in
  (* Case 3: Direct Spanner value *)
  if String.eqb typeName "" then
    match asValue (h Val) with
    | Some v => getSpannerType (ssa.VType v) spannerTypes
    | None => ""
    end
  else typeName.

(** Second pass, for one instruction: find the stores of Spanner types. *)
Definition checkStore (h : Heap) (spannerTypes : gmap types.NamedPtr string)
    (deferredVars : gmap ssa.Ptr bool) (instr : ssa.Ptr)
    (ds : list analysis.Diagnostic) : list analysis.Diagnostic :=
  match h instr with
  | Store Addr Val pos =>
      let typeName := storedTypeName h spannerTypes Val in
      if negb (String.eqb typeName "") && negb (isDeferredVar deferredVars Addr) then
        analysis.Report
          {| analysis.Pos := pos;
             analysis.Message := typeName ++ ".Close() must be deferred" |} ds
      else ds
  | _ => ds
  end.

(** [checkFunc]; it dereferences the function at once, so that a nil
    function makes it panic: [None]. *)
Definition checkFunc (h : Heap) (fn : option ssa.Function)
    (spannerTypes : gmap types.NamedPtr string)
    (ds : list analysis.Diagnostic) : option (list analysis.Diagnostic) :=
  match fn with
  | None => None
  | Some fn =>
      let deferredVars :=
        fold_left (fun dv block =>
                     fold_left (fun dv instr => collectDeferred h instr dv) block dv)
                  (ssa.Blocks fn) ∅ in
      Some (fold_left (fun ds block =>
                         fold_left (fun ds instr =>
                                      checkStore h spannerTypes deferredVars instr ds)
                                   block ds)
                      (ssa.Blocks fn) ds)
  end.

(** The loop over [AllPackages()], which here goes through every package. *)
Fixpoint registerSpanner (pkgs : list types.Package)
    (spannerTypes : gmap types.NamedPtr string) : gmap types.NamedPtr string :=
  match pkgs with
  | [] => spannerTypes
  | pkg :: rest =>
      if String.eqb (types.Path pkg) "cloud.google.com/go/spanner" then
        registerSpanner rest
          (registerType pkg "RowIterator"
             (registerType pkg "BatchReadOnlyTransaction"
                (registerType pkg "ReadOnlyTransaction" spannerTypes)))
      else registerSpanner rest spannerTypes
  end.

(** The loop over [SrcFuncs]; a panic ends it. *)
Fixpoint checkFuncs (h : Heap) (fns : list (option ssa.Function))
    (spannerTypes : gmap types.NamedPtr string)
    (ds : list analysis.Diagnostic) : option (list analysis.Diagnostic) :=
  match fns with
  | [] => Some ds
  | fn :: rest =>
      match checkFunc h fn spannerTypes ds with
      | Some ds => checkFuncs h rest spannerTypes ds
      | None => None
      end
  end.

(** [deferOnlyAnalyzer]: [None] when it panics. *)
Definition deferOnlyAnalyzer (pass : analysis.Pass) (h : Heap) : option Outcome :=
  let pssa := analysis.ResultOf_buildssa pass in
  let spannerTypes := registerSpanner (ssa.AllPackages pssa) ∅ in
  if Nat.eqb (size spannerTypes) 0 then
    Some {| result := None; err := None; reported := [] |}
  else
    match checkFuncs h (ssa.SrcFuncs pssa) spannerTypes [] with
    | Some ds => Some {| result := None; err := None; reported := ds |}
    | None => None
    end.

(** A deferred call of the function that invokes an interface method named
    Close or Stop (the [Method] of the call is set) has [addr] as its
    receiver, or loads its receiver from [addr]. A deferred call of a
    concrete method has no [Method] and closes nothing here. *)
Definition closedByDefer (h : Heap) (fn : ssa.Function) (addr : ssa.Ptr) : Prop :=
  ∃ instr call pos methodName value,
    instr ∈ instrsOf fn ∧ h instr = Defer call pos ∧
    ssa.Method call = Some methodName ∧
    (methodName = "Close" ∨ methodName = "Stop") ∧
    ssa.CValue call = Some value ∧
    (addr = value ∨ ∃ v, h value = UnOp v addr).

(** [txn := client.ReadOnlyTransaction(); defer closer.Close()], with the
    handle kept in a variable and [closer] loaded from another one; then a
    second handle stored and closed through its own variable. *)
Definition hStores : Heap :=
  λ p, nth p
    [ NonInstr (Fixture.reg "ReadOnlyTransaction" types.Other token.NoPos []);
      Call (Fixture.reg "t0" (types.Pointer (types.Named 1)) 2412%Z [3%nat]) (Fixture.static 0 []);
      ValueInstr (Fixture.reg "t1" types.Other 2402%Z [3%nat]);
      Store 2 1 2406%Z;
      ValueInstr (Fixture.reg "t2" types.Other 2502%Z [5; 6]%nat);
      Store 4 1 2506%Z;
      UnOp (Fixture.reg "t3" types.Other 2608%Z [7%nat]) 4;
      Defer (Fixture.invoke 6 "Close" []) 2602%Z ]
    (Instr token.NoPos).
Definition fnStores : ssa.Function :=
  {| ssa.FPos := 2306%Z; ssa.Blocks := [[1; 2; 3; 4; 5]%nat; [6; 7]%nat] |}.

End legacy.

(** What one instruction adds to the deferred variables: a defer that
    invokes an interface method named Close or Stop adds its receiver and,
    when the receiver is a load, the address loaded from. *)
Definition marksDeferred (h : legacy.Heap) (instr addr : ssa.Ptr) : Prop :=
  ∃ call pos methodName value,
    h instr = legacy.Defer call pos ∧
    ssa.Method call = Some methodName ∧
    (methodName = "Close" ∨ methodName = "Stop") ∧
    ssa.CValue call = Some value ∧
    (addr = value ∨ ∃ v, h value = legacy.UnOp v addr).

(** ** Passes that differ by their source functions *)

(** The pass with the source functions replaced, all else kept. *)
Definition withSrcFuncs (pass : analysis.Pass) (fns : list (option ssa.Function))
    : analysis.Pass :=
  {| analysis.Fset := analysis.Fset pass;
     analysis.Files := analysis.Files pass;
     analysis.ResultOf_buildssa :=
       {| ssa.AllPackages := ssa.AllPackages (analysis.ResultOf_buildssa pass);
          ssa.SrcFuncs := fns |} |}.

(** The three names [deferOnlyAnalyzer] registers. *)
Definition registeredName (name : string) : Prop :=
  name = "ReadOnlyTransaction" ∨ name = "BatchReadOnlyTransaction" ∨
  name = "RowIterator".

(** More concrete passes. *)
Module Sample.

(** A second package with the Spanner path, after the first: a vendored
    copy whose types are other types. *)
Definition vendoredPkg : types.Package :=
  {| types.Path := "cloud.google.com/go/spanner";
     types.Scope := <["RowIterator" := types.Named 7]> ∅ |}.

(** A directive for another linter, and a misspelt one, on the line of the
    finding. *)
Definition passOtherLinter : analysis.Pass :=
  Fixture.passWith Fixture.fset
    [Fixture.group (Fixture.comment 201%Z "//nolint:spanerclosecheck") [];
     Fixture.group (Fixture.comment 2450%Z "//nolint:errcheck") []]
    [Fixture.contextPkg; Fixture.spannerPkg] [Fixture.fnLeak].

(** [iter := txn.Query(ctx, stmt); defer release(iter.Stop())], where Stop
    is a concrete method that returns a value: the call has no [Method]. *)
Definition hStatic : ssa.Heap :=
  Fixture.heapOf
    [ Fixture.func "Query";
      ssa.Call (Fixture.reg "t0" (types.Pointer (types.Named 3)) 2413%Z [2%nat])
               (Fixture.static 0 []);
      ssa.Call (Fixture.reg "t1" types.Other 2519%Z [3%nat]) (Fixture.static 4 [1%nat]);
      ssa.Defer (Fixture.static 5 [2%nat]) 2505%Z;
      Fixture.func "Stop";
      Fixture.func "release" ].
Definition fnStatic : ssa.Function := {| ssa.FPos := 2306%Z; ssa.Blocks := [[1; 2; 3]%nat] |}.

(** For the earlier analyzer: [txn := client.ReadOnlyTransaction(); defer
    txn.Close()], the handle kept in a variable and Close a concrete method
    of the handle: the deferred call has no [Method]. *)
Definition hStoresStatic : legacy.Heap :=
  λ p, nth p
    [ legacy.NonInstr (Fixture.reg "ReadOnlyTransaction" types.Other token.NoPos []);
      legacy.Call (Fixture.reg "t0" (types.Pointer (types.Named 1)) 2412%Z [3%nat])
                  (Fixture.static 0 []);
      legacy.ValueInstr (Fixture.reg "t1" types.Other 2402%Z [3; 4]%nat);
      legacy.Store 2 1 2406%Z;
      legacy.UnOp (Fixture.reg "t2" types.Other 2508%Z [5%nat]) 2;
      legacy.Defer (Fixture.static 6 [4%nat]) 2502%Z;
      legacy.NonInstr (Fixture.reg "Close" types.Other token.NoPos []) ]
    (legacy.Instr token.NoPos).
Definition fnStoresStatic : ssa.Function :=
  {| ssa.FPos := 2306%Z; ssa.Blocks := [[1; 2; 3; 4; 5]%nat] |}.

End Sample.

(** * Properties *)

(** ** The functions of [strings] meet their documentation *)

Lemma append_nil (s : string) : ("" ++ s)%string = s.
Proof. reflexivity. Qed.

Lemma append_cons a (s1 s2 : string) :
  (String a s1 ++ s2)%string = String a (s1 ++ s2)%string.
Proof. reflexivity. Qed.

Lemma HasPrefix_true s p :
  strings.HasPrefix s p = true ↔ ∃ post, s = (p ++ post)%string.
Proof.
  unfold strings.HasPrefix. revert s.
  induction p as [|a p IH]; intros s.
  - destruct s; simpl; (split; [intros _; eexists; reflexivity | reflexivity]).
  - destruct s as [|b s]; simpl.
    + split; [discriminate | intros (post & E)]. rewrite append_cons in E. discriminate E.
    + destruct (Ascii.ascii_dec a b) as [-> | Hne].
      * rewrite IH. split; intros (post & E); exists post.
        -- rewrite append_cons, E. reflexivity.
        -- rewrite append_cons in E. injection E as E. exact E.
      * split; [discriminate | intros (post & E)].
        rewrite append_cons in E. congruence.
Qed.

Lemma Contains_true s substr :
  strings.Contains s substr = true ↔
  ∃ pre post, s = (pre ++ substr ++ post)%string.
Proof.
  induction s as [|a s IH]; cbn [strings.Contains].
  - destruct (strings.HasPrefix "" substr) eqn:E.
    + apply HasPrefix_true in E as (post & E).
      split; [intros _ | reflexivity]. exists "", post. exact E.
    + split; [discriminate|]. intros (pre & post & Hs).
      destruct pre; [|rewrite append_cons in Hs; discriminate Hs].
      assert (strings.HasPrefix "" substr = true) by (apply HasPrefix_true; eauto).
      congruence.
  - destruct (strings.HasPrefix (String a s) substr) eqn:E.
    + apply HasPrefix_true in E as (post & E).
      split; [intros _ | reflexivity]. exists "", post. exact E.
    + rewrite IH. split.
      * intros (pre & post & ->). exists (String a pre), post. reflexivity.
      * intros (pre & post & Hs). destruct pre as [|b pre].
        -- assert (strings.HasPrefix (String a s) substr = true)
             by (apply HasPrefix_true; eauto).
           congruence.
        -- rewrite append_cons in Hs. injection Hs as _ ->. eauto.
Qed.

Lemma substring_all s : String.substring 0 (String.length s) s = s.
Proof. induction s as [|a s IH]; simpl; [reflexivity | rewrite IH; reflexivity]. Qed.

Lemma substring_skip pre s m :
  String.substring (String.length pre) m (pre ++ s)%string = String.substring 0 m s.
Proof.
  induction pre as [|a pre IH]; [reflexivity|].
  rewrite append_cons. simpl. exact IH.
Qed.

Lemma string_length_app (s1 s2 : string) :
  String.length (s1 ++ s2)%string = (String.length s1 + String.length s2)%nat.
Proof.
  induction s1 as [|a s1 IH]; [reflexivity|].
  rewrite append_cons. simpl. rewrite IH. reflexivity.
Qed.

Lemma substring_tail s n :
  (n ≤ String.length s)%nat →
  ∃ pre, s = (pre ++ String.substring n (String.length s - n) s)%string.
Proof.
  revert n. induction s as [|a s IH]; intros n Hn.
  - exists "". destruct n; reflexivity.
  - destruct n as [|n].
    + exists "". rewrite Nat.sub_0_r, substring_all. reflexivity.
    + simpl in Hn. destruct (IH n ltac:(lia)) as (pre & E).
      exists (String a pre). rewrite append_cons. simpl. rewrite <- E. reflexivity.
Qed.

Lemma HasSuffix_true s suffix :
  strings.HasSuffix s suffix = true ↔ ∃ pre, s = (pre ++ suffix)%string.
Proof.
  unfold strings.HasSuffix. rewrite andb_true_iff, Nat.leb_le, String.eqb_eq. split.
  - intros [Hlen E].
    destruct (substring_tail s (String.length s - String.length suffix) ltac:(lia))
      as (pre & Hs).
    exists pre.
    replace (String.length s - (String.length s - String.length suffix))%nat
      with (String.length suffix) in Hs by lia.
    rewrite E in Hs. exact Hs.
  - intros (pre & ->). rewrite string_length_app. split; [lia|].
    replace (String.length pre + String.length suffix - String.length suffix)%nat
      with (String.length pre) by lia.
    rewrite substring_skip. apply substring_all.
Qed.

Example generated_names :
  strings.HasSuffix "models/user.yo.go" ".yo.go" = true ∧
  strings.HasSuffix "api/v1/service.pb.go" ".pb.go" = true ∧
  strings.HasSuffix "go" "_gen.go" = false ∧
  strings.Contains "internal/generated/x.go" "generated" = true ∧
  strings.Contains "main.go" "generated" = false.
Proof. repeat split; reflexivity. Qed.

(** ** The loops, characterised *)

Lemma isDefer_dec (h : ssa.Heap) (p : ssa.Ptr) : {isDefer h p} + {¬ isDefer h p}.
Proof.
  unfold isDefer. destruct (h p) eqn:E; try (right; intros (c0 & p0 & ?); congruence).
  left. eauto.
Qed.

Lemma hasDeferredClose_callRefs_true h callRefs :
  hasDeferredClose_callRefs h callRefs = true ↔
  ∃ callRef, callRef ∈ callRefs ∧ isDefer h callRef.
Proof.
  induction callRefs as [|r rest IH]; simpl.
  - split; [discriminate | intros (x & Hx & _); inversion Hx].
  - destruct (isDefer_dec h r) as [Hd | Hd].
    + destruct Hd as (c & p & E). rewrite E. split; [intros _ | reflexivity].
      exists r. split; [left | exists c, p; exact E].
    + assert (Hstep : match h r with
                      | ssa.Defer _ _ => true
                      | _ => hasDeferredClose_callRefs h rest
                      end = hasDeferredClose_callRefs h rest).
      { destruct (h r) eqn:E; try reflexivity. exfalso. apply Hd. exists c, pos. exact E. }
      rewrite Hstep, IH. split.
      * intros (x & Hx & Hdx). exists x. split; [right; exact Hx | exact Hdx].
      * intros (x & Hx & Hdx). apply elem_of_cons in Hx as [-> | Hx]; [contradiction|].
        exists x. split; assumption.
Qed.

Lemma useSites_call h ref call c :
  h ref = ssa.Call call c → useSites h ref = default [] (ssa.Referrers call).
Proof. intros E. unfold useSites. rewrite E. reflexivity. Qed.

Lemma closeOrStop_true m :
  String.eqb m "Close" || String.eqb m "Stop" = true ↔ m = "Close" ∨ m = "Stop".
Proof. rewrite orb_true_iff, !String.eqb_eq. reflexivity. Qed.

Lemma hasDeferredClose_refs_head h ref rest :
  hasDeferredClose_refs h (ref :: rest) = true ↔
  coveringRef h ref ∨ hasDeferredClose_refs h rest = true.
Proof.
  simpl. unfold coveringRef.
  destruct (h ref) as [call c|v t i|v|c p|rs p|ops p|v] eqn:E;
    try (split; [intros H; right; exact H
                | intros [[(c0 & p0 & ?) | (call0 & c0 & m0 & r0 & ? & _)] | H];
                  [congruence | congruence | exact H]]).
  - (* a call *)
    destruct (ssa.Method c) as [m|] eqn:Em.
    + destruct (String.eqb m "Close" || String.eqb m "Stop") eqn:Ecs.
      * apply closeOrStop_true in Ecs.
        destruct (ssa.Referrers call) as [callRefs|] eqn:Er.
        -- destruct (hasDeferredClose_callRefs h callRefs) eqn:Ecr.
           ++ split; [intros _ | reflexivity]. left. right.
              apply hasDeferredClose_callRefs_true in Ecr as (r & Hr & Hd).
              exists call, c, m, r. rewrite (useSites_call h ref call c E), Er.
              repeat split; assumption.
           ++ split; [intros H; right; exact H |].
              intros [[(c0 & p0 & ?) | (call0 & c0 & m0 & r0 & Eh & _ & _ & Hr & Hd)] | H];
                [congruence | | exact H].
              rewrite (useSites_call h ref call c E), Er in Hr. simpl in Hr.
              assert (hasDeferredClose_callRefs h callRefs = true) as Habs
                by (apply hasDeferredClose_callRefs_true; eauto).
              congruence.
        -- split; [intros H; right; exact H |].
           intros [[(c0 & p0 & ?) | (call0 & c0 & m0 & r0 & Eh & _ & _ & Hr & Hd)] | H];
             [congruence | | exact H].
           rewrite (useSites_call h ref call c E), Er in Hr. inversion Hr.
      * split; [intros H; right; exact H |].
        intros [[(c0 & p0 & ?) | (call0 & c0 & m0 & r0 & Eh & Hm & Hcs & _)] | H];
          [congruence | | exact H].
        injection Eh as <- <-. rewrite Em in Hm. injection Hm as <-.
        apply closeOrStop_true in Hcs. congruence.
    + split; [intros H; right; exact H |].
      intros [[(c0 & p0 & ?) | (call0 & c0 & m0 & r0 & Eh & Hm & _)] | H];
        [congruence | | exact H].
      injection Eh as <- <-. congruence.
  - (* a defer *)
    split; [intros _ | reflexivity]. left. left. exists c, p. exact E.
Qed.

Lemma hasDeferredClose_refs_true h refs :
  hasDeferredClose_refs h refs = true ↔ ∃ ref, ref ∈ refs ∧ coveringRef h ref.
Proof.
  induction refs as [|ref rest IH].
  - simpl. split; [discriminate | intros (x & Hx & _); inversion Hx].
  - rewrite hasDeferredClose_refs_head, IH. split.
    + intros [H | (x & Hx & Hc)].
      * exists ref. split; [left | exact H].
      * exists x. split; [right; exact Hx | exact Hc].
    + intros (x & Hx & Hc). apply elem_of_cons in Hx as [-> | Hx]; [left; exact Hc|].
      right. exists x. split; assumption.
Qed.

Lemma hasDeferredClose_useSites h val :
  hasDeferredClose h val = hasDeferredClose_refs h (useSites h val).
Proof.
  unfold hasDeferredClose, useSites.
  destruct (ssa.asValue (h val)) as [v|]; [|reflexivity].
  destruct (ssa.Referrers v); reflexivity.
Qed.

Lemma hasDeferredClose_true h val :
  hasDeferredClose h val = true ↔
  directlyDeferred h val ∨
  deferredMethodCall h val (λ m, m = "Close" ∨ m = "Stop").
Proof.
  rewrite hasDeferredClose_useSites, hasDeferredClose_refs_true.
  unfold directlyDeferred, deferredMethodCall, coveringRef. split.
  - intros (ref & Hin & [Hd | (call & c & m & r & E & Hm & Hcs & Hr & Hd)]).
    + left. eauto.
    + right. exists ref, call, c, m, r. repeat split; assumption.
  - intros [(ref & Hin & Hd) | (ref & call & c & m & r & Hin & E & Hm & Hcs & Hr & Hd)].
    + exists ref. split; [exact Hin | left; exact Hd].
    + exists ref. split; [exact Hin | right]. exists call, c, m, r.
      repeat split; assumption.
Qed.

Lemma isReturned_results_true results val :
  isReturned_results results val = true ↔ val ∈ results.
Proof.
  induction results as [|r rest IH]; simpl.
  - split; [discriminate | intros H; inversion H].
  - destruct (Nat.eqb r val) eqn:E.
    + apply Nat.eqb_eq in E as ->. split; [intros _; left | reflexivity].
    + apply Nat.eqb_neq in E. rewrite IH, elem_of_cons. split; [tauto|].
      intros [-> | H]; [contradiction | exact H].
Qed.

Lemma isReturned_refs_true h refs val :
  isReturned_refs h refs val = true ↔
  ∃ ref results pos, ref ∈ refs ∧ h ref = ssa.Return results pos ∧ val ∈ results.
Proof.
  induction refs as [|ref rest IH]; simpl.
  - split; [discriminate | intros (x & rs & p & Hx & _); inversion Hx].
  - assert (Hrest : isReturned_refs h rest val = true →
                    ∃ ref0 results pos, ref0 ∈ ref :: rest ∧
                      h ref0 = ssa.Return results pos ∧ val ∈ results).
    { intros (x & rs & p & Hx & E & Hv)%IH. exists x, rs, p.
      split; [right; exact Hx | split; assumption]. }
    destruct (h ref) as [v c|v t i|v|c p|rs p|ops p|v] eqn:E;
      try (split; [exact Hrest |];
           intros (x & rs0 & p0 & Hx & E0 & Hv);
           apply elem_of_cons in Hx as [-> | Hx]; [congruence|];
           apply IH; exists x, rs0, p0; repeat split; assumption).
    destruct (isReturned_results rs val) eqn:Er.
    + split; [intros _ | reflexivity]. apply isReturned_results_true in Er.
      exists ref, rs, p. split; [left | split; assumption].
    + split; [exact Hrest |].
      intros (x & rs0 & p0 & Hx & E0 & Hv).
      apply elem_of_cons in Hx as [-> | Hx].
      * rewrite E in E0. injection E0 as <- <-.
        apply isReturned_results_true in Hv. congruence.
      * apply IH. exists x, rs0, p0. repeat split; assumption.
Qed.

Lemma isReturnedFromFunction_useSites h fn val :
  isReturnedFromFunction h fn val = isReturned_refs h (useSites h val) val.
Proof.
  unfold isReturnedFromFunction, useSites.
  destruct (ssa.asValue (h val)) as [v|]; [|reflexivity].
  destruct (ssa.Referrers v); reflexivity.
Qed.

(** ** What the loop body reports *)

Lemma checkInstr_covered pass h fn spannerTypes instr ds :
  hasDeferredClose h instr = true →
  checkInstr pass h fn spannerTypes instr ds = ds.
Proof.
  intros Hc. unfold checkInstr.
  destruct (ssa.asValue (h instr)) as [v|]; [|reflexivity].
  destruct (negb _); [|reflexivity].
  destruct (_ && isFromSingle _ _); [reflexivity|].
  destruct (_ && isReturnedFromFunction _ _ _); [reflexivity|].
  rewrite Hc. reflexivity.
Qed.

Lemma checkInstr_reports pass h fn spannerTypes instr typeName ds :
  candidate h spannerTypes instr typeName →
  ¬ exempt h fn instr typeName →
  hasDeferredClose h instr = false →
  hasNolintDirective pass (reportPos h instr) = false →
  checkInstr pass h fn spannerTypes instr ds =
  ds ++ [{| analysis.Pos := reportPos h instr;
            analysis.Message := typeName ++ ".Close() must be deferred" |}].
Proof.
  intros (v & Hv & Ht & Hne) Hex Hc Hs. unfold checkInstr.
  rewrite Hv, Ht.
  apply String.eqb_neq in Hne. rewrite Hne. simpl negb. cbv iota.
  destruct (String.eqb typeName "ReadOnlyTransaction" && isFromSingle h instr) eqn:E1.
  { exfalso. apply Hex. left. apply andb_true_iff in E1 as [E1 ?].
    apply String.eqb_eq in E1. split; assumption. }
  destruct (String.eqb typeName "RowIterator" && isReturnedFromFunction h fn instr) eqn:E2.
  { exfalso. apply Hex. right. apply andb_true_iff in E2 as [E2 ?].
    apply String.eqb_eq in E2. split; assumption. }
  rewrite Hc, Hs. reflexivity.
Qed.

Lemma checkInstr_suppressed pass h fn spannerTypes instr ds :
  hasNolintDirective pass (reportPos h instr) = true →
  checkInstr pass h fn spannerTypes instr ds = ds.
Proof.
  intros Hs. unfold checkInstr.
  destruct (ssa.asValue (h instr)) as [v|]; [|reflexivity].
  destruct (negb _); [|reflexivity].
  destruct (_ && isFromSingle _ _); [reflexivity|].
  destruct (_ && isReturnedFromFunction _ _ _); [reflexivity|].
  destruct (negb (hasDeferredClose h instr)); [|reflexivity].
  rewrite Hs. reflexivity.
Qed.

(** The diagnostics already reported are never touched: the body appends. *)
Lemma checkInstr_appends pass h fn spannerTypes instr ds :
  checkInstr pass h fn spannerTypes instr ds =
  ds ++ checkInstr pass h fn spannerTypes instr [].
Proof.
  unfold checkInstr, analysis.Report.
  repeat match goal with
         | |- context [match ?x with _ => _ end] => destruct x
         end; rewrite ?app_nil_r; reflexivity.
Qed.

Lemma checkBlock_appends pass h fn spannerTypes instrs ds :
  checkBlock pass h fn spannerTypes instrs ds =
  ds ++ flat_map (λ i, checkInstr pass h fn spannerTypes i []) instrs.
Proof.
  unfold checkBlock. revert ds.
  induction instrs as [|i rest IH]; intros ds; simpl.
  - rewrite app_nil_r. reflexivity.
  - rewrite IH, (checkInstr_appends _ _ _ _ _ ds), <- app_assoc. reflexivity.
Qed.

(** A function that is not skipped is scanned instruction by instruction,
    block after block. *)
Lemma checkFunc_scan pass h fn spannerTypes ds :
  isGeneratedFile pass (ssa.FPos fn) = false →
  checkFunc pass h (Some fn) spannerTypes ds =
  ds ++ flat_map (λ i, checkInstr pass h fn spannerTypes i []) (instrsOf fn).
Proof.
  intros Hg. unfold checkFunc, instrsOf. rewrite Hg.
  generalize (ssa.Blocks fn) as blocks. intros blocks. revert ds.
  induction blocks as [|b rest IH]; intros ds; simpl.
  - rewrite app_nil_r. reflexivity.
  - rewrite IH, checkBlock_appends, flat_map_app, <- app_assoc. reflexivity.
Qed.

Lemma checkFunc_skipped pass h fn spannerTypes ds :
  isGeneratedFile pass (ssa.FPos fn) = true →
  checkFunc pass h (Some fn) spannerTypes ds = ds.
Proof. intros Hg. unfold checkFunc. rewrite Hg. reflexivity. Qed.

Lemma checkFunc_appends pass h fn spannerTypes ds :
  checkFunc pass h fn spannerTypes ds = ds ++ checkFunc pass h fn spannerTypes [].
Proof.
  destruct fn as [fn|]; [|simpl; rewrite app_nil_r; reflexivity].
  destruct (isGeneratedFile pass (ssa.FPos fn)) eqn:Hg.
  - rewrite !checkFunc_skipped by exact Hg. rewrite app_nil_r. reflexivity.
  - rewrite (checkFunc_scan _ _ _ _ ds), (checkFunc_scan _ _ _ _ []) by exact Hg.
    reflexivity.
Qed.

(** With a registry that is not empty, the findings of the analyzer are the
    findings of its functions, one function after the other. *)
Lemma deferOnlyAnalyzer_reported pass h :
  let pssa := analysis.ResultOf_buildssa pass in
  let spannerTypes := registerSpanner (ssa.AllPackages pssa) ∅ in
  spannerTypes ≠ ∅ →
  reported (deferOnlyAnalyzer pass h) =
  flat_map (λ fn, checkFunc pass h fn spannerTypes []) (ssa.SrcFuncs pssa).
Proof.
  intros pssa spannerTypes Hne. unfold deferOnlyAnalyzer. fold pssa. fold spannerTypes.
  destruct (Nat.eqb (size spannerTypes) 0) eqn:E.
  { apply Nat.eqb_eq, map_size_empty_iff in E. contradiction. }
  cbn [reported].
  assert (Hfold : ∀ fns ds,
            fold_left (λ ds fn, checkFunc pass h fn spannerTypes ds) fns ds =
            ds ++ flat_map (λ fn, checkFunc pass h fn spannerTypes []) fns).
  { induction fns as [|fn fns IH]; intros ds; simpl.
    - rewrite app_nil_r. reflexivity.
    - rewrite IH, (checkFunc_appends _ _ _ _ ds), <- app_assoc. reflexivity. }
  apply (Hfold _ []).
Qed.

(** ** The nolint filter, characterised *)

Lemma anyComment_true test cs :
  anyComment test cs = true ↔ ∃ c, c ∈ cs ∧ test (ast.Text c) = true.
Proof.
  induction cs as [|c rest IH]; simpl.
  - split; [discriminate | intros (x & Hx & _); inversion Hx].
  - destruct (test (ast.Text c)) eqn:E.
    + split; [intros _ | reflexivity]. exists c. split; [left | exact E].
    + rewrite IH. split.
      * intros (x & Hx & Ht). exists x. split; [right; exact Hx | exact Ht].
      * intros (x & Hx & Ht). apply elem_of_cons in Hx as [-> | Hx]; [congruence|].
        exists x. split; assumption.
Qed.

(** The line test of [hasNolintDirective]: same line, or the line before. *)
Lemma nolint_line_test commentLine line :
  Nat.eqb commentLine line || Z.eqb (Z.of_nat commentLine) (Z.of_nat line - 1) = true ↔
  commentLine = line ∨ S commentLine = line.
Proof. rewrite orb_true_iff, Nat.eqb_eq, Z.eqb_eq. lia. Qed.

Lemma hasNolintDirective_groups_true fset file line cgs :
  hasNolintDirective_groups fset file line cgs = true ↔
  ∃ cg, cg ∈ cgs ∧ silencingGroup fset file line cg.
Proof.
  unfold silencingGroup.
  induction cgs as [|cg rest IH]; cbn [hasNolintDirective_groups].
  - split; [discriminate | intros (x & Hx & _); inversion Hx].
  - destruct (Nat.eqb _ line || Z.eqb _ _) eqn:El.
    + apply nolint_line_test in El.
      destruct (anyComment nolintDirective (ast.List cg)) eqn:Ea.
      * split; [intros _ | reflexivity]. apply anyComment_true in Ea.
        exists cg. split; [left | split; assumption].
      * rewrite IH. split.
        -- intros (x & Hx & Hs). exists x. split; [right; exact Hx | exact Hs].
        -- intros (x & Hx & Hl & Hc). apply elem_of_cons in Hx as [-> | Hx].
           ++ apply anyComment_true in Hc. congruence.
           ++ exists x. split; [exact Hx | split; assumption].
    + rewrite IH. split.
      * intros (x & Hx & Hs). exists x. split; [right; exact Hx | exact Hs].
      * intros (x & Hx & Hl & Hc). apply elem_of_cons in Hx as [-> | Hx].
        -- apply nolint_line_test in Hl. congruence.
        -- exists x. split; [exact Hx | split; assumption].
Qed.

Lemma hasNolintDirective_files_head fset file line f rest :
  hasNolintDirective_files fset file line (f :: rest) = true ↔
  (token.File fset (ast.Pos f) = Some file ∧
   hasNolintDirective_groups fset file line (ast.Comments f) = true) ∨
  hasNolintDirective_files fset file line rest = true.
Proof.
  cbn [hasNolintDirective_files].
  destruct (token.File fset (ast.Pos f)) as [file'|] eqn:Ef.
  - destruct (Nat.eqb file' file) eqn:Ee.
    + apply Nat.eqb_eq in Ee as ->.
      destruct (hasNolintDirective_groups fset file line (ast.Comments f)).
      * split; [intros _; left; split; reflexivity | reflexivity].
      * split; [intros H; right; exact H | intros [[_ H] | H]; [discriminate | exact H]].
    + apply Nat.eqb_neq in Ee.
      split; [intros H; right; exact H | intros [[H _] | H]; [congruence | exact H]].
  - split; [intros H; right; exact H | intros [[H _] | H]; [discriminate | exact H]].
Qed.

Lemma hasNolintDirective_files_true fset file line fs :
  hasNolintDirective_files fset file line fs = true ↔
  ∃ f cg, f ∈ fs ∧ token.File fset (ast.Pos f) = Some file ∧
          cg ∈ ast.Comments f ∧ silencingGroup fset file line cg.
Proof.
  induction fs as [|f rest IH].
  - simpl. split; [discriminate | intros (x & cg & Hx & _); inversion Hx].
  - rewrite hasNolintDirective_files_head, IH, hasNolintDirective_groups_true. split.
    + intros [[Hf (cg & Hcg & Hs)] | (x & cg & Hx & Hf & Hcg & Hs)].
      * exists f, cg. split; [left | split; [exact Hf | split; assumption]].
      * exists x, cg. split; [right; exact Hx | split; [exact Hf | split; assumption]].
    + intros (x & cg & Hx & Hf & Hcg & Hs). apply elem_of_cons in Hx as [-> | Hx].
      * left. split; [exact Hf | exists cg; split; assumption].
      * right. exists x, cg. split; [exact Hx | split; [exact Hf | split; assumption]].
Qed.

(** Positional suppression depends on the file and the line of the position
    only, through the comment groups that start on that line or the one
    before. *)
Lemma hasNolintDirective_true pass pos file :
  token.File (analysis.Fset pass) pos = Some file →
  hasNolintDirective pass pos = true ↔
  ∃ f cg, f ∈ analysis.Files pass ∧
          token.File (analysis.Fset pass) (ast.Pos f) = Some file ∧
          cg ∈ ast.Comments f ∧
          silencingGroup (analysis.Fset pass) file
                         (token.Line (analysis.Fset pass) file pos) cg.
Proof.
  intros Hf. unfold hasNolintDirective. rewrite Hf.
  apply hasNolintDirective_files_true.
Qed.

(** File-level suppression: a group within the first ten lines, reached
    before any group that starts later, carrying a directive. *)
Lemma hasFileLevelNolint_groups_hit fset file pre cg post :
  Forall (λ g, (token.Line fset file (ast.cgPos g) ≤ 10)%nat) pre →
  (token.Line fset file (ast.cgPos cg) ≤ 10)%nat →
  anyComment fileLevelDirective (ast.List cg) = true →
  hasFileLevelNolint_groups fset file (pre ++ cg :: post) = true.
Proof.
  intros Hpre Hcg Hany.
  induction Hpre as [|g pre Hg Hpre IH]; cbn [app hasFileLevelNolint_groups].
  - apply Nat.ltb_ge in Hcg. rewrite Hcg, Hany. reflexivity.
  - apply Nat.ltb_ge in Hg. rewrite Hg.
    destruct (anyComment fileLevelDirective (ast.List g)); [reflexivity | exact IH].
Qed.

Lemma hasFileLevelNolint_files_hit fset file fs f :
  f ∈ fs → token.File fset (ast.Pos f) = Some file →
  hasFileLevelNolint_groups fset file (ast.Comments f) = true →
  hasFileLevelNolint_files fset file fs = true.
Proof.
  intros Hin Hf Hg. induction fs as [|f0 rest IH]; [inversion Hin|].
  simpl. apply elem_of_cons in Hin as [<- | Hin].
  - rewrite Hf, Nat.eqb_refl, Hg. reflexivity.
  - destruct (token.File fset (ast.Pos f0)) as [file'|]; [|auto].
    destruct (Nat.eqb file' file); [|auto].
    destruct (hasFileLevelNolint_groups fset file (ast.Comments f0)); auto.
Qed.

Lemma isGeneratedFile_fileLevel pass pos :
  hasFileLevelNolint pass pos = true → isGeneratedFile pass pos = true.
Proof.
  intros H. unfold isGeneratedFile.
  destruct (token.File (analysis.Fset pass) pos) eqn:Ef.
  - repeat match goal with |- context [if ?b then true else _] => destruct b end;
      try reflexivity. discriminate.
  - unfold hasFileLevelNolint in H. rewrite Ef in H. discriminate.
Qed.

Example registry_of_fixture :
  Fixture.spannerTypes =
  <[3%nat := "RowIterator"]>
    (<[2%nat := "BatchReadOnlyTransaction"]> (<[1%nat := "ReadOnlyTransaction"]> ∅)).
Proof. reflexivity. Qed.

Example leak_is_reported :
  reported (deferOnlyAnalyzer (Fixture.passPlain [Fixture.fnLeak]) Fixture.hLeak) =
  [{| analysis.Pos := 2413%Z; analysis.Message := "RowIterator.Close() must be deferred" |}].
Proof. reflexivity. Qed.

Example tuple_is_reported_at_the_call :
  reported (deferOnlyAnalyzer (Fixture.passPlain [Fixture.fnTuple]) Fixture.hTuple) =
  [{| analysis.Pos := 2423%Z;
      analysis.Message := "BatchReadOnlyTransaction.Close() must be deferred" |}].
Proof. reflexivity. Qed.

Example called_but_not_deferred_is_reported :
  reported (deferOnlyAnalyzer (Fixture.passPlain [Fixture.fnCalled]) Fixture.hCalled) =
  [{| analysis.Pos := 2413%Z; analysis.Message := "RowIterator.Close() must be deferred" |}].
Proof. reflexivity. Qed.

Example single_is_silent :
  reported (deferOnlyAnalyzer (Fixture.passPlain [Fixture.fnSingle]) Fixture.hSingle) = [].
Proof. reflexivity. Qed.

Example bare_nolint_is_silent :
  reported (deferOnlyAnalyzer Fixture.passBare Fixture.hLeak) = [].
Proof. reflexivity. Qed.

(** ** The coverage decision *)

(** C1, as the code has it: for a candidate that is neither exempt nor
    suppressed, [hasDeferredClose] answers true exactly when (a) a defer is
    among the use sites of the value, or (b) a use site is a call that
    invokes an interface method (the [Method] of the call is set) named
    Close or Stop, either name for every resource type, and that call has a
    defer among its own use sites. A call of a concrete method, which has
    no [Method], does not count for (b), whatever its name and its use
    sites. A covered candidate is not reported; one that is not covered, as
    when its cleanup method is called but the call is never deferred,
    receives one diagnostic. *)
Theorem coverage_decision pass h fn spannerTypes instr typeName ds :
  candidate h spannerTypes instr typeName →
  ¬ exempt h fn instr typeName →
  hasNolintDirective pass (reportPos h instr) = false →
  (hasDeferredClose h instr = true ↔ coveredByCloseOrStop h instr) ∧
  (coveredByCloseOrStop h instr →
   checkInstr pass h fn spannerTypes instr ds = ds) ∧
  (¬ coveredByCloseOrStop h instr →
   ∃ d, checkInstr pass h fn spannerTypes instr ds = ds ++ [d]) ∧
  (¬ directlyDeferred h instr →
   (∀ ref call c, ref ∈ useSites h instr → h ref = ssa.Call call c →
                  ssa.Method c = None) →
   hasDeferredClose h instr = false ∧
   ∃ d, checkInstr pass h fn spannerTypes instr ds = ds ++ [d]).
Proof.
  intros Hcand Hex Hs.
  assert (Hiff : hasDeferredClose h instr = true ↔ coveredByCloseOrStop h instr)
    by apply hasDeferredClose_true.
  assert (Hrep : ¬ coveredByCloseOrStop h instr →
                 hasDeferredClose h instr = false ∧
                 ∃ d, checkInstr pass h fn spannerTypes instr ds = ds ++ [d]).
  { intros Hn.
    assert (Hc : hasDeferredClose h instr = false).
    { destruct (hasDeferredClose h instr); [|reflexivity].
      exfalso. apply Hn, Hiff. reflexivity. }
    split; [exact Hc|]. eexists.
    apply (checkInstr_reports _ _ _ _ _ typeName); assumption. }
  split; [exact Hiff | split; [|split]].
  - intros Hc. apply checkInstr_covered, Hiff, Hc.
  - intros Hn. apply Hrep, Hn.
  - intros Hnd Hstatic. apply Hrep.
    intros [Hd | (ref & call & c & m & r & Hin & E & Hm & _)]; [contradiction|].
    rewrite (Hstatic ref call c Hin E) in Hm. discriminate.
Qed.

Lemma coverage_decision_witness :
  (hasDeferredClose Sample.hStatic 1 = true ↔ coveredByCloseOrStop Sample.hStatic 1) ∧
  (coveredByCloseOrStop Sample.hStatic 1 →
   checkInstr (Fixture.passPlain [Sample.fnStatic]) Sample.hStatic Sample.fnStatic
              Fixture.spannerTypes 1 [] = []) ∧
  (¬ coveredByCloseOrStop Sample.hStatic 1 →
   ∃ d, checkInstr (Fixture.passPlain [Sample.fnStatic]) Sample.hStatic Sample.fnStatic
                   Fixture.spannerTypes 1 [] = [] ++ [d]) ∧
  (¬ directlyDeferred Sample.hStatic 1 →
   (∀ ref call c, ref ∈ useSites Sample.hStatic 1 → Sample.hStatic ref = ssa.Call call c →
                  ssa.Method c = None) →
   hasDeferredClose Sample.hStatic 1 = false ∧
   ∃ d, checkInstr (Fixture.passPlain [Sample.fnStatic]) Sample.hStatic Sample.fnStatic
                   Fixture.spannerTypes 1 [] = [] ++ [d]).
Proof.
  apply (coverage_decision (Fixture.passPlain [Sample.fnStatic]) Sample.hStatic
           Sample.fnStatic Fixture.spannerTypes 1 "RowIterator" []).
  - eexists. split; [reflexivity | split; [reflexivity | discriminate]].
  - intros [[? _] | [_ ?]]; discriminate.
  - reflexivity.
Defined.

Example concrete_stop_call_does_not_cover :
  hasDeferredClose Sample.hStatic 1 = false ∧
  reported (deferOnlyAnalyzer (Fixture.passPlain [Sample.fnStatic]) Sample.hStatic) =
  [{| analysis.Pos := 2413%Z; analysis.Message := "RowIterator.Close() must be deferred" |}].
Proof. split; reflexivity. Qed.

(** Membership in a list given by its elements. *)
Ltac elem_cases H :=
  repeat (apply elem_of_cons in H as [H | H]; [subst | ]); try (inversion H; fail).

(** C1, as stated, fails: an iterator handed to a deferred call through an
    interface method named Close is decided covered, although its
    descriptor asks for Stop and nothing defers the iterator itself. *)
Lemma coverage_ignores_descriptor :
  candidate Fixture.hCloser Fixture.spannerTypes 1 "RowIterator" ∧
  ¬ exempt Fixture.hCloser Fixture.fnCloser 1 "RowIterator" ∧
  hasNolintDirective (Fixture.passPlain [Fixture.fnCloser])
                     (reportPos Fixture.hCloser 1) = false ∧
  hasDeferredClose Fixture.hCloser 1 = true ∧
  ¬ coveredByDescriptor Fixture.hCloser 1 "RowIterator".
Proof.
  split; [|split; [|split; [|split]]].
  - eexists. split; [reflexivity | split; [reflexivity | discriminate]].
  - intros [[? _] | [_ ?]]; discriminate.
  - reflexivity.
  - reflexivity.
  - intros [(ref & Hin & (c & p & E)) | (ref & call & c & m & r & Hin & E & Hm & (rt & Hrt & Hcm) & _)].
    + change (useSites Fixture.hCloser 1) with [2%nat] in Hin.
      elem_cases Hin. discriminate E.
    + change (useSites Fixture.hCloser 1) with [2%nat] in Hin.
      elem_cases Hin. injection E as <- <-.
      change (spannerResourceTypes !! "RowIterator")
        with (Some {| Name := "RowIterator"; CloseMethod := "Stop" |}) in Hrt.
      injection Hrt as <-. discriminate Hm.
Qed.

(** C10: a defer among the use sites of a value covers it, whatever the
    deferred call is, and no diagnostic is reported for it. *)
Theorem any_defer_covers pass h fn spannerTypes instr ref ds :
  ref ∈ useSites h instr →
  isDefer h ref →
  hasDeferredClose h instr = true ∧
  checkInstr pass h fn spannerTypes instr ds = ds.
Proof.
  intros Hin Hd.
  assert (Hc : hasDeferredClose h instr = true).
  { apply hasDeferredClose_true. left. exists ref. split; assumption. }
  split; [exact Hc | apply checkInstr_covered, Hc].
Qed.

Lemma any_defer_covers_witness :
  hasDeferredClose Fixture.hDeferLog 1 = true ∧
  checkInstr (Fixture.passPlain [Fixture.fnDeferLog]) Fixture.hDeferLog
             Fixture.fnDeferLog Fixture.spannerTypes 1 [] = [].
Proof.
  apply (any_defer_covers (Fixture.passPlain [Fixture.fnDeferLog]) Fixture.hDeferLog
           Fixture.fnDeferLog Fixture.spannerTypes 1 2 []).
  - change (useSites Fixture.hDeferLog 1) with [2%nat]. left.
  - eexists _, _. reflexivity.
Defined.

(** ** The message *)

(** C2 at the leaking iterator: the analyzer writes Close into the message
    of every finding, so an iterator is reported with a method it does not
    have, where the descriptor's own template gives Stop. *)
Theorem rowiterator_message_says_close :
  reported (deferOnlyAnalyzer (Fixture.passPlain [Fixture.fnLeak]) Fixture.hLeak) =
    [{| analysis.Pos := 2413%Z;
        analysis.Message := "RowIterator.Close() must be deferred" |}] ∧
  CloseMessage <$> (spannerResourceTypes !! "RowIterator") =
    Some "RowIterator.Stop() must be deferred".
Proof. split; reflexivity. Qed.

(** ** The exemptions *)

(** C3: a ReadOnlyTransaction produced by a call of Single, invoked as an
    interface method or as a concrete method, is never reported. *)
Theorem single_is_exempt pass h fn spannerTypes instr v c ds :
  h instr = ssa.Call v c →
  getSpannerType (ssa.VType v) spannerTypes = "ReadOnlyTransaction" →
  (ssa.Method c = Some "Single" ∨
   ∃ f fv, ssa.CValue c = Some f ∧ ssa.asValue (h f) = Some fv ∧
           ssa.VName fv = "Single") →
  isFromSingle h instr = true ∧
  checkInstr pass h fn spannerTypes instr ds = ds.
Proof.
  intros E Ht Hsingle.
  assert (Hs : isFromSingle h instr = true).
  { unfold isFromSingle. rewrite E.
    destruct Hsingle as [Hm | (f & fv & Hf & Hfv & Hn)].
    - rewrite Hm. reflexivity.
    - destruct (ssa.Method c) as [m|]; [destruct (String.eqb m "Single"); [reflexivity|]|];
        rewrite Hf, Hfv, Hn; reflexivity. }
  split; [exact Hs|].
  unfold checkInstr. rewrite E. cbn [ssa.asValue]. rewrite Ht, Hs. reflexivity.
Qed.

Lemma single_is_exempt_witness :
  isFromSingle Fixture.hSingle 1 = true ∧
  checkInstr (Fixture.passPlain [Fixture.fnSingle]) Fixture.hSingle Fixture.fnSingle
             Fixture.spannerTypes 1 [] = [].
Proof.
  apply (single_is_exempt (Fixture.passPlain [Fixture.fnSingle]) Fixture.hSingle
           Fixture.fnSingle Fixture.spannerTypes 1
           (Fixture.reg "t0" (types.Pointer (types.Named 1)) 2412%Z [])
           (Fixture.static 0 []) []).
  - reflexivity.
  - reflexivity.
  - right. eexists _, _. split; [reflexivity | split; reflexivity].
Defined.

(** C4: a RowIterator that is one of the results of a return instruction of
    the enclosing function is not reported, whether or not its cleanup is
    deferred. The return is found among the use sites of the iterator, where
    the SSA form records it. *)
Theorem returned_iterator_is_exempt pass h fn spannerTypes instr v ret results pos ds :
  defUseConsistent h fn →
  instr ∈ instrsOf fn →
  ssa.asValue (h instr) = Some v →
  getSpannerType (ssa.VType v) spannerTypes = "RowIterator" →
  ret ∈ instrsOf fn →
  h ret = ssa.Return results pos →
  instr ∈ results →
  isReturnedFromFunction h fn instr = true ∧
  checkInstr pass h fn spannerTypes instr ds = ds.
Proof.
  intros Hwf Hi Hv Ht Hr Eret Hres.
  assert (Hret : isReturnedFromFunction h fn instr = true).
  { rewrite isReturnedFromFunction_useSites. apply isReturned_refs_true.
    exists ret, results, pos. split; [|split; assumption].
    apply Hwf; [exact Hr | exact Hi |]. rewrite Eret. exact Hres. }
  split; [exact Hret|].
  unfold checkInstr. rewrite Hv, Ht, Hret.
  destruct (_ && isFromSingle h instr); reflexivity.
Qed.

Lemma fixture_return_consistent : defUseConsistent Fixture.hReturn Fixture.fnReturn.
Proof.
  intros i x Hi Hx Hop.
  change (instrsOf Fixture.fnReturn) with [1; 2]%nat in Hi, Hx.
  elem_cases Hi; elem_cases Hx; vm_compute in Hop; elem_cases Hop.
  vm_compute. left.
Qed.

Lemma returned_iterator_is_exempt_witness :
  isReturnedFromFunction Fixture.hReturn Fixture.fnReturn 1 = true ∧
  checkInstr (Fixture.passPlain [Fixture.fnReturn]) Fixture.hReturn Fixture.fnReturn
             Fixture.spannerTypes 1 [] = [].
Proof.
  apply (returned_iterator_is_exempt (Fixture.passPlain [Fixture.fnReturn])
           Fixture.hReturn Fixture.fnReturn Fixture.spannerTypes 1
           (Fixture.reg "t0" (types.Pointer (types.Named 3)) 2412%Z [2%nat])
           2 [1%nat] 2405%Z []).
  - exact fixture_return_consistent.
  - change (instrsOf Fixture.fnReturn) with [1; 2]%nat. left.
  - reflexivity.
  - reflexivity.
  - change (instrsOf Fixture.fnReturn) with [1; 2]%nat. right. left.
  - reflexivity.
  - left.
Defined.

(** ** The registry *)

Lemma registerSpanner_not_imported pkgs spannerTypes :
  Forall (λ pkg, types.Path pkg ≠ "cloud.google.com/go/spanner") pkgs →
  registerSpanner pkgs spannerTypes = spannerTypes.
Proof.
  induction 1 as [|pkg rest Hne _ IH]; simpl; [reflexivity|].
  apply String.eqb_neq in Hne. rewrite Hne. exact IH.
Qed.

Lemma registerType_unresolved pkg name spannerTypes :
  (∀ named, types.Scope pkg !! name ≠ Some (types.Named named)) →
  registerType pkg name spannerTypes = spannerTypes.
Proof.
  intros Hno. unfold registerType.
  destruct (types.Scope pkg !! name) as [[named| |]|] eqn:E; try reflexivity.
  exfalso. apply (Hno named). reflexivity.
Qed.

(** The analyzer never returns a result or an error. *)
Lemma deferOnlyAnalyzer_returns_nil pass h :
  result (deferOnlyAnalyzer pass h) = None ∧ err (deferOnlyAnalyzer pass h) = None.
Proof. unfold deferOnlyAnalyzer. destruct (Nat.eqb _ 0); split; reflexivity. Qed.

(** C5: when the registry is empty after the registration of the three
    types, the analyzer returns nil and no error, looks at no function and
    reports nothing. *)
Theorem empty_registry_is_noop pass h :
  registerSpanner (ssa.AllPackages (analysis.ResultOf_buildssa pass)) ∅ = ∅ →
  deferOnlyAnalyzer pass h = {| result := None; err := None; reported := [] |}.
Proof.
  intros Hempty. unfold deferOnlyAnalyzer. rewrite Hempty.
  rewrite map_size_empty. reflexivity.
Qed.

Lemma empty_registry_is_noop_witness :
  deferOnlyAnalyzer Fixture.passNoSpanner Fixture.hLeak =
  {| result := None; err := None; reported := [] |}.
Proof.
  apply (empty_registry_is_noop Fixture.passNoSpanner Fixture.hLeak).
  reflexivity.
Defined.

(** ** Reporting *)

(** C6: a candidate that is not exempt, not covered and not suppressed
    receives exactly one diagnostic: the loop body appends one entry, and
    the scan of the enclosing function, when the function is not skipped,
    contains it once between what the instructions before and after it
    produce. Its position is that of the instruction, or that of the tuple
    when the instruction extracts from a tuple. *)
Theorem uncovered_candidate_reported_once pass h fn spannerTypes instr typeName ds :
  candidate h spannerTypes instr typeName →
  ¬ exempt h fn instr typeName →
  hasDeferredClose h instr = false →
  hasNolintDirective pass (reportPos h instr) = false →
  ∃ d,
    checkInstr pass h fn spannerTypes instr ds = ds ++ [d] ∧
    (∀ before after,
       isGeneratedFile pass (ssa.FPos fn) = false →
       instrsOf fn = before ++ instr :: after →
       checkFunc pass h (Some fn) spannerTypes ds =
       ds ++ flat_map (λ i, checkInstr pass h fn spannerTypes i []) before
          ++ d :: flat_map (λ i, checkInstr pass h fn spannerTypes i []) after) ∧
    analysis.Pos d =
      match h instr with
      | ssa.Extract _ (Some tuple) _ => ssa.Pos (h tuple)
      | producer => ssa.Pos producer
      end.
Proof.
  intros Hcand Hex Hc Hs.
  pose proof (checkInstr_reports pass h fn spannerTypes instr typeName) as Hrep.
  eexists. split; [apply Hrep; assumption | split].
  - intros before after Hg Hsplit.
    rewrite checkFunc_scan by exact Hg. rewrite Hsplit, flat_map_app.
    cbn [flat_map]. rewrite (Hrep [] Hcand Hex Hc Hs). reflexivity.
  - reflexivity.
Qed.

Lemma uncovered_candidate_reported_once_witness :
  ∃ d,
    checkInstr (Fixture.passPlain [Fixture.fnTuple]) Fixture.hTuple Fixture.fnTuple
               Fixture.spannerTypes 2 [] = [] ++ [d] ∧
    (∀ before after,
       isGeneratedFile (Fixture.passPlain [Fixture.fnTuple]) (ssa.FPos Fixture.fnTuple) = false →
       instrsOf Fixture.fnTuple = before ++ 2%nat :: after →
       checkFunc (Fixture.passPlain [Fixture.fnTuple]) Fixture.hTuple (Some Fixture.fnTuple)
                 Fixture.spannerTypes [] =
       [] ++ flat_map (λ i, checkInstr (Fixture.passPlain [Fixture.fnTuple]) Fixture.hTuple
                              Fixture.fnTuple Fixture.spannerTypes i []) before
          ++ d :: flat_map (λ i, checkInstr (Fixture.passPlain [Fixture.fnTuple]) Fixture.hTuple
                                   Fixture.fnTuple Fixture.spannerTypes i []) after) ∧
    analysis.Pos d = 2423%Z.
Proof.
  apply (uncovered_candidate_reported_once (Fixture.passPlain [Fixture.fnTuple])
           Fixture.hTuple Fixture.fnTuple Fixture.spannerTypes 2
           "BatchReadOnlyTransaction" []).
  - eexists. split; [reflexivity | split; [reflexivity | discriminate]].
  - intros [[? _] | [? _]]; discriminate.
  - reflexivity.
  - reflexivity.
Defined.

(** ** Suppression *)

Lemma nolintDirective_tokens text :
  nolintDirective text = true ↔
  strings.Contains text "nolint:spannerclosecheck" = true ∨
  strings.Contains text "nolint:all" = true ∨
  (strings.Contains text "nolint" = true ∧ strings.Contains text ":" = false).
Proof.
  unfold nolintDirective.
  rewrite !orb_true_iff, andb_true_iff, negb_true_iff. tauto.
Qed.

(** C7, as the code has it. Take a position of a file. A comment that
    opens its comment group on the line of the position or on the line
    before, and carries the targeted token, the all-tools token or a bare
    nolint without any colon, suppresses the finding reported there. The
    filter looks at the file and the line only: every position on the same
    line is treated alike, so one comment silences all the findings of its
    own line and of the next one. In a file where no directive follows
    another comment inside a comment group, the positional filter answers
    true only when a comment with one of the tokens is on the line of the
    position or on the line before. How a directive that follows another
    comment in its group is placed is not part of this statement. *)
Theorem nolint_positional pass pos file :
  token.File (analysis.Fset pass) pos = Some file →
  (∀ f cg,
     f ∈ analysis.Files pass →
     token.File (analysis.Fset pass) (ast.Pos f) = Some file →
     cg ∈ ast.Comments f →
     (token.Line (analysis.Fset pass) file (ast.Slash (ast.cg_head cg)) =
        token.Line (analysis.Fset pass) file pos ∨
      S (token.Line (analysis.Fset pass) file (ast.Slash (ast.cg_head cg))) =
        token.Line (analysis.Fset pass) file pos) →
     (strings.Contains (ast.Text (ast.cg_head cg)) "nolint:spannerclosecheck" = true ∨
      strings.Contains (ast.Text (ast.cg_head cg)) "nolint:all" = true ∨
      (strings.Contains (ast.Text (ast.cg_head cg)) "nolint" = true ∧
       strings.Contains (ast.Text (ast.cg_head cg)) ":" = false)) →
     hasNolintDirective pass pos = true ∧
     ∀ h fn spannerTypes instr ds,
       reportPos h instr = pos →
       checkInstr pass h fn spannerTypes instr ds = ds) ∧
  (∀ pos',
     token.File (analysis.Fset pass) pos' = Some file →
     token.Line (analysis.Fset pass) file pos' = token.Line (analysis.Fset pass) file pos →
     hasNolintDirective pass pos' = hasNolintDirective pass pos) ∧
  ((∀ f cg,
      f ∈ analysis.Files pass →
      token.File (analysis.Fset pass) (ast.Pos f) = Some file →
      cg ∈ ast.Comments f →
      anyComment nolintDirective (ast.cg_tail cg) = false) →
   hasNolintDirective pass pos = true →
   ∃ f cg,
     f ∈ analysis.Files pass ∧
     token.File (analysis.Fset pass) (ast.Pos f) = Some file ∧
     cg ∈ ast.Comments f ∧
     (token.Line (analysis.Fset pass) file (ast.Slash (ast.cg_head cg)) =
        token.Line (analysis.Fset pass) file pos ∨
      S (token.Line (analysis.Fset pass) file (ast.Slash (ast.cg_head cg))) =
        token.Line (analysis.Fset pass) file pos) ∧
     (strings.Contains (ast.Text (ast.cg_head cg)) "nolint:spannerclosecheck" = true ∨
      strings.Contains (ast.Text (ast.cg_head cg)) "nolint:all" = true ∨
      (strings.Contains (ast.Text (ast.cg_head cg)) "nolint" = true ∧
       strings.Contains (ast.Text (ast.cg_head cg)) ":" = false))).
Proof.
  intros Hfile. split; [|split].
  - intros f cg Hf Hsame Hcg Hline Htok.
    assert (Hs : hasNolintDirective pass pos = true).
    { apply (hasNolintDirective_true pass pos file Hfile).
      exists f, cg. split; [exact Hf | split; [exact Hsame | split; [exact Hcg|]]].
      split; [exact Hline|]. exists (ast.cg_head cg). split; [left|].
      apply nolintDirective_tokens, Htok. }
    split; [exact Hs|]. intros h fn spannerTypes instr ds Hpos.
    apply checkInstr_suppressed. rewrite Hpos. exact Hs.
  - intros pos' Hfile' Hline. apply Bool.eq_iff_eq_true.
    rewrite (hasNolintDirective_true pass pos' file Hfile'),
            (hasNolintDirective_true pass pos file Hfile), Hline.
    reflexivity.
  - intros Halone Hs.
    apply (hasNolintDirective_true pass pos file Hfile) in Hs
      as (f & cg & Hf & Hsame & Hcg & Hline & c & Hc & Htok).
    exists f, cg. split; [exact Hf | split; [exact Hsame | split; [exact Hcg|]]].
    split; [exact Hline|]. apply nolintDirective_tokens.
    unfold ast.List in Hc. apply elem_of_cons in Hc as [-> | Hc]; [exact Htok|].
    assert (Htail : anyComment nolintDirective (ast.cg_tail cg) = true)
      by (apply anyComment_true; exists c; split; assumption).
    rewrite (Halone f cg Hf Hsame Hcg) in Htail. discriminate.
Qed.

Lemma nolint_positional_witness :
  hasNolintDirective Fixture.passBare 2413%Z = true ∧
  hasNolintDirective Fixture.passBare 2460%Z = true ∧
  hasNolintDirective Fixture.passBare 2513%Z = true ∧
  hasNolintDirective Fixture.passBare 2613%Z = false.
Proof.
  pose proof (nolint_positional Fixture.passBare 2413%Z 0%nat eq_refl) as [Hhit [Hline _]].
  split; [|split; [|split]].
  - refine (proj1 (Hhit {| ast.Package := 101%Z;
                           ast.Comments := [Fixture.group (Fixture.comment 2450%Z "//nolint") []] |}
                        (Fixture.group (Fixture.comment 2450%Z "//nolint") []) _ _ _ _ _)).
    + left.
    + reflexivity.
    + left.
    + left. reflexivity.
    + right. right. split; reflexivity.
  - exact (Hline 2460%Z eq_refl eq_refl).
  - reflexivity.
  - destruct (hasNolintDirective Fixture.passBare 2613%Z) eqn:E; [|reflexivity].
    exfalso.
    pose proof (nolint_positional Fixture.passBare 2613%Z 0%nat eq_refl) as [_ [_ Honly]].
    destruct Honly as (f & cg & Hf & _ & Hcg & Hat & _).
    + intros f cg Hf _ Hcg.
      apply list_elem_of_singleton in Hf as ->.
      apply list_elem_of_singleton in Hcg as ->. reflexivity.
    + exact E.
    + apply list_elem_of_singleton in Hf as ->.
      apply list_elem_of_singleton in Hcg as ->.
      vm_compute in Hat. destruct Hat as [Hat | Hat]; discriminate Hat.
Defined.

(** C7, as stated, fails: the single bare directive at the end of line 24
    silences three positions, two of them on its own line and one on line
    25, and not one diagnostic only. *)
Lemma nolint_is_not_one_to_one :
  analysis.Files Fixture.passBare =
    [{| ast.Package := 101%Z;
        ast.Comments := [Fixture.group (Fixture.comment 2450%Z "//nolint") []] |}] ∧
  token.Line Fixture.fset 0 2450%Z = 24%nat ∧
  token.Line Fixture.fset 0 2413%Z = 24%nat ∧
  token.Line Fixture.fset 0 2460%Z = 24%nat ∧
  token.Line Fixture.fset 0 2513%Z = 25%nat ∧
  hasNolintDirective Fixture.passBare 2413%Z = true ∧
  hasNolintDirective Fixture.passBare 2460%Z = true ∧
  hasNolintDirective Fixture.passBare 2513%Z = true.
Proof. repeat split; reflexivity. Qed.

(** The test data and the documentation place a directive on the line
    before the finding. Here it is there, as the second line of a two-line
    comment, and the finding is reported all the same. *)
Example directive_closing_a_comment_is_missed :
  token.Line Fixture.fset 0 2302%Z = 23%nat ∧
  token.Line Fixture.fset 0 2413%Z = 24%nat ∧
  nolintDirective "//nolint:spannerclosecheck" = true ∧
  hasNolintDirective Fixture.passTwoLines 2413%Z = false ∧
  reported (deferOnlyAnalyzer Fixture.passTwoLines Fixture.hLeak) =
    [{| analysis.Pos := 2413%Z;
        analysis.Message := "RowIterator.Close() must be deferred" |}].
Proof. repeat split; reflexivity. Qed.

Lemma commentLines_split fset file f pre cg post :
  ast.Comments f = pre ++ cg :: post →
  commentLines fset file f =
  flat_map (λ cg, map (λ c, token.Line fset file (ast.Slash c)) (ast.List cg)) pre ++
  map (λ c, token.Line fset file (ast.Slash c)) (ast.List cg) ++
  flat_map (λ cg, map (λ c, token.Line fset file (ast.Slash c)) (ast.List cg)) post.
Proof.
  intros E. unfold commentLines. rewrite E, flat_map_app. reflexivity.
Qed.

(** In source order, a comment within the first ten lines is found by the
    file-level loop: its group and the groups before it start no later. *)
Lemma hasFileLevelNolint_groups_sorted fset file f cg c :
  inSourceOrder fset file f →
  cg ∈ ast.Comments f → c ∈ ast.List cg →
  (token.Line fset file (ast.Slash c) ≤ 10)%nat →
  fileLevelDirective (ast.Text c) = true →
  hasFileLevelNolint_groups fset file (ast.Comments f) = true.
Proof.
  intros Hsorted Hcg Hc Hline Htok.
  apply list_elem_of_split in Hcg as (pre & post & E).
  unfold inSourceOrder in Hsorted.
  rewrite (commentLines_split fset file f pre cg post E) in Hsorted.
  set (lineOf := λ c0 : ast.Comment, token.Line fset file (ast.Slash c0)) in *.
  assert (Hc_in : lineOf c ∈ map lineOf (ast.List cg)).
  { apply list_elem_of_In, in_map, list_elem_of_In, Hc. }
  rewrite E. apply hasFileLevelNolint_groups_hit.
  - apply Forall_forall. intros g Hg.
    assert (Hg_in : lineOf (ast.cg_head g) ∈ flat_map (λ cg0, map lineOf (ast.List cg0)) pre).
    { apply list_elem_of_In, in_flat_map. exists g. split; [apply list_elem_of_In, Hg|].
      left. reflexivity. }
    assert (Hle : (lineOf (ast.cg_head g) ≤ lineOf c)%nat);
      [|exact (Nat.le_trans _ _ _ Hle Hline)].
    eapply (StronglySorted_app_1_elem_of le); [exact Hsorted | exact Hg_in |].
    apply elem_of_app. left. exact Hc_in.
  - assert (Hle : (lineOf (ast.cg_head cg) ≤ lineOf c)%nat);
      [|exact (Nat.le_trans _ _ _ Hle Hline)].
    apply StronglySorted_app_1_r, StronglySorted_app_1_l in Hsorted.
    cbn [ast.List map] in Hsorted, Hc_in.
    apply StronglySorted_cons in Hsorted as [Hall _].
    apply elem_of_cons in Hc_in as [-> | Hc_in]; [lia|].
    rewrite Forall_forall in Hall. apply Hall, Hc_in.
  - apply anyComment_true. exists c. split; assumption.
Qed.

(** C8: a comment within the first ten lines of a file that carries the
    targeted or the all-tools token makes [isGeneratedFile] answer true for
    every function positioned in that file, so [checkFunc] returns before it
    looks at any instruction and reports nothing. *)
Theorem file_level_nolint_skips_functions pass h file f cg c fn spannerTypes ds :
  f ∈ analysis.Files pass →
  token.File (analysis.Fset pass) (ast.Pos f) = Some file →
  inSourceOrder (analysis.Fset pass) file f →
  cg ∈ ast.Comments f →
  c ∈ ast.List cg →
  (token.Line (analysis.Fset pass) file (ast.Slash c) ≤ 10)%nat →
  (strings.Contains (ast.Text c) "nolint:spannerclosecheck" = true ∨
   strings.Contains (ast.Text c) "nolint:all" = true) →
  token.File (analysis.Fset pass) (ssa.FPos fn) = Some file →
  isGeneratedFile pass (ssa.FPos fn) = true ∧
  checkFunc pass h (Some fn) spannerTypes ds = ds.
Proof.
  intros Hf Hsame Hsorted Hcg Hc Hline Htok Hfn.
  assert (Hg : isGeneratedFile pass (ssa.FPos fn) = true).
  { apply isGeneratedFile_fileLevel. unfold hasFileLevelNolint. rewrite Hfn.
    apply (hasFileLevelNolint_files_hit _ _ _ f Hf Hsame).
    apply (hasFileLevelNolint_groups_sorted _ _ _ cg c); try assumption.
    unfold fileLevelDirective. apply orb_true_iff. exact Htok. }
  split; [exact Hg | apply checkFunc_skipped, Hg].
Qed.

Lemma file_level_nolint_skips_functions_witness :
  isGeneratedFile Fixture.passFileLevel (ssa.FPos Fixture.fnLeak) = true ∧
  checkFunc Fixture.passFileLevel Fixture.hLeak (Some Fixture.fnLeak)
            Fixture.spannerTypes [] = [].
Proof.
  apply (file_level_nolint_skips_functions Fixture.passFileLevel Fixture.hLeak 0%nat
           {| ast.Package := 101%Z;
              ast.Comments := [Fixture.group (Fixture.comment 201%Z "//nolint:spannerclosecheck") []] |}
           (Fixture.group (Fixture.comment 201%Z "//nolint:spannerclosecheck") [])
           (Fixture.comment 201%Z "//nolint:spannerclosecheck")
           Fixture.fnLeak Fixture.spannerTypes []).
  - left.
  - reflexivity.
  - unfold inSourceOrder. vm_compute. repeat constructor.
  - left.
  - left.
  - vm_compute. lia.
  - left. reflexivity.
  - reflexivity.
Defined.

(** ** Missing position metadata *)

(** C9, as the code has it: when no file is found for a position, the
    three filters answer false there without failing. Nothing is skipped on
    that account: a function at such a position is scanned, and a candidate
    reported at such a position, when it is neither exempt nor covered,
    still receives its diagnostic. A source file whose own position has no
    file is passed over by the comment loops, and the loops go on. *)
Theorem missing_file_metadata pass pos :
  token.File (analysis.Fset pass) pos = None →
  isGeneratedFile pass pos = false ∧
  hasFileLevelNolint pass pos = false ∧
  hasNolintDirective pass pos = false ∧
  (∀ h fn spannerTypes ds,
     ssa.FPos fn = pos →
     checkFunc pass h (Some fn) spannerTypes ds =
     ds ++ flat_map (λ i, checkInstr pass h fn spannerTypes i []) (instrsOf fn)) ∧
  (∀ h fn spannerTypes instr typeName ds,
     reportPos h instr = pos →
     candidate h spannerTypes instr typeName →
     ¬ exempt h fn instr typeName →
     hasDeferredClose h instr = false →
     checkInstr pass h fn spannerTypes instr ds =
     ds ++ [{| analysis.Pos := pos;
               analysis.Message := typeName ++ ".Close() must be deferred" |}]) ∧
  (∀ file line f rest,
     ast.Pos f = pos →
     hasNolintDirective_files (analysis.Fset pass) file line (f :: rest) =
       hasNolintDirective_files (analysis.Fset pass) file line rest ∧
     hasFileLevelNolint_files (analysis.Fset pass) file (f :: rest) =
       hasFileLevelNolint_files (analysis.Fset pass) file rest).
Proof.
  intros Hnone.
  assert (Hg : isGeneratedFile pass pos = false)
    by (unfold isGeneratedFile; rewrite Hnone; reflexivity).
  assert (Hs : hasNolintDirective pass pos = false)
    by (unfold hasNolintDirective; rewrite Hnone; reflexivity).
  split; [exact Hg | split; [|split; [exact Hs | split; [|split]]]].
  - unfold hasFileLevelNolint. rewrite Hnone. reflexivity.
  - intros h fn spannerTypes ds <-. apply checkFunc_scan, Hg.
  - intros h fn spannerTypes instr typeName ds Hpos Hcand Hex Hc.
    rewrite <- Hpos. apply checkInstr_reports; try assumption.
    rewrite Hpos. exact Hs.
  - intros file line f rest Hpos. cbn [hasNolintDirective_files hasFileLevelNolint_files].
    rewrite Hpos, Hnone. split; reflexivity.
Qed.

Lemma missing_file_metadata_witness :
  isGeneratedFile Fixture.passNoFiles 2413%Z = false ∧
  hasFileLevelNolint Fixture.passNoFiles 2413%Z = false ∧
  hasNolintDirective Fixture.passNoFiles 2413%Z = false ∧
  (∀ h fn spannerTypes ds,
     ssa.FPos fn = 2413%Z →
     checkFunc Fixture.passNoFiles h (Some fn) spannerTypes ds =
     ds ++ flat_map (λ i, checkInstr Fixture.passNoFiles h fn spannerTypes i [])
                    (instrsOf fn)) ∧
  (∀ h fn spannerTypes instr typeName ds,
     reportPos h instr = 2413%Z →
     candidate h spannerTypes instr typeName →
     ¬ exempt h fn instr typeName →
     hasDeferredClose h instr = false →
     checkInstr Fixture.passNoFiles h fn spannerTypes instr ds =
     ds ++ [{| analysis.Pos := 2413%Z;
               analysis.Message := typeName ++ ".Close() must be deferred" |}]) ∧
  (∀ file line f rest,
     ast.Pos f = 2413%Z →
     hasNolintDirective_files (analysis.Fset Fixture.passNoFiles) file line (f :: rest) =
       hasNolintDirective_files (analysis.Fset Fixture.passNoFiles) file line rest ∧
     hasFileLevelNolint_files (analysis.Fset Fixture.passNoFiles) file (f :: rest) =
       hasFileLevelNolint_files (analysis.Fset Fixture.passNoFiles) file rest).
Proof.
  apply (missing_file_metadata Fixture.passNoFiles 2413%Z).
  reflexivity.
Defined.

(** C9, as stated, fails: with no file behind any position, the leaking
    iterator is not skipped; the analyzer reports it. *)
Lemma missing_file_metadata_still_reports :
  token.File (analysis.Fset Fixture.passNoFiles) (ssa.FPos Fixture.fnLeak) = None ∧
  token.File (analysis.Fset Fixture.passNoFiles) (reportPos Fixture.hLeak 1) = None ∧
  checkInstr Fixture.passNoFiles Fixture.hLeak Fixture.fnLeak Fixture.spannerTypes 1 [] =
    [{| analysis.Pos := 2413%Z;
        analysis.Message := "RowIterator.Close() must be deferred" |}] ∧
  reported (deferOnlyAnalyzer Fixture.passNoFiles Fixture.hLeak) =
    [{| analysis.Pos := 2413%Z;
        analysis.Message := "RowIterator.Close() must be deferred" |}].
Proof. repeat split; reflexivity. Qed.


(** * Further properties of the analyzer *)

(** ** Which types are candidates *)

(** X1: a type is looked up under a non-empty name exactly when it is a
    registered named type or a pointer to one; only one level of pointer is
    stripped, so a pointer to a pointer is never found. *)
Theorem getSpannerType_named_or_pointer t spannerTypes :
  (∀ name,
     getSpannerType t spannerTypes = name ∧ name ≠ "" ↔
     ∃ named, (t = types.Named named ∨ t = types.Pointer (types.Named named)) ∧
              spannerTypes !! named = Some name ∧ name ≠ "") ∧
  (∀ elem, t = types.Pointer (types.Pointer elem) → getSpannerType t spannerTypes = "").
Proof.
  split.
  - intros name. split.
    + intros [Hg Hne]. unfold getSpannerType in Hg.
      destruct t as [named|[named|elem|]|]; try congruence.
      * destruct (spannerTypes !! named) as [name'|] eqn:E; [|congruence].
        exists named. split; [left; reflexivity | split; congruence].
      * destruct (spannerTypes !! named) as [name'|] eqn:E; [|congruence].
        exists named. split; [right; reflexivity | split; congruence].
    + intros (named & [-> | ->] & Hl & Hne); unfold getSpannerType;
        rewrite Hl; split; [reflexivity | exact Hne | reflexivity | exact Hne].
  - intros elem ->. reflexivity.
Qed.

(** ** The registry *)

Lemma registerType_lookup pkg nm spannerTypes named name :
  registerType pkg nm spannerTypes !! named = Some name ↔
  (types.Scope pkg !! nm = Some (types.Named named) ∧ name = nm) ∨
  (types.Scope pkg !! nm ≠ Some (types.Named named) ∧
   spannerTypes !! named = Some name).
Proof.
  unfold registerType.
  destruct (types.Scope pkg !! nm) as [[named'| |]|] eqn:E;
    try (split; [intros H; right; split; [discriminate | exact H]
                | intros [[H _] | [_ H]]; [discriminate H | exact H]]).
  rewrite lookup_insert_Some. split.
  - intros [[-> <-] | [Hne H]].
    + left. split; reflexivity.
    + right. split; [congruence | exact H].
  - intros [[H ->] | [Hne H]].
    + injection H as ->. left. split; reflexivity.
    + right. split; [congruence | exact H].
Qed.

Lemma registerSpanner_first pre pkg rest spannerTypes :
  Forall (λ p, types.Path p ≠ "cloud.google.com/go/spanner") pre →
  types.Path pkg = "cloud.google.com/go/spanner" →
  registerSpanner (pre ++ pkg :: rest) spannerTypes =
  registerType pkg "RowIterator"
    (registerType pkg "BatchReadOnlyTransaction"
       (registerType pkg "ReadOnlyTransaction" spannerTypes)).
Proof.
  intros Hpre Hpath. induction Hpre as [|p pre Hp _ IH]; cbn [app registerSpanner].
  - rewrite Hpath. reflexivity.
  - apply String.eqb_neq in Hp. rewrite Hp. exact IH.
Qed.

(** Either no package has the Spanner path, or there is a first one. *)
Lemma first_spanner_package pkgs :
  Forall (λ p, types.Path p ≠ "cloud.google.com/go/spanner") pkgs ∨
  ∃ pre pkg rest,
    pkgs = pre ++ pkg :: rest ∧
    Forall (λ p, types.Path p ≠ "cloud.google.com/go/spanner") pre ∧
    types.Path pkg = "cloud.google.com/go/spanner".
Proof.
  induction pkgs as [|p pkgs IH].
  - left. constructor.
  - destruct (String.eqb (types.Path p) "cloud.google.com/go/spanner") eqn:E.
    + apply String.eqb_eq in E. right. exists [], p, pkgs.
      split; [reflexivity | split; [constructor | exact E]].
    + apply String.eqb_neq in E. destruct IH as [IH | (pre & pkg & rest & -> & Hpre & Hpath)].
      * left. constructor; assumption.
      * right. exists (p :: pre), pkg, rest.
        split; [reflexivity | split; [constructor; assumption | exact Hpath]].
Qed.

(** X2: every entry of the registry comes from the scope of the first
    package whose path is the Spanner path, under one of the three
    registered names; nothing else is ever registered. *)
Theorem registry_holds_only_spanner_types pkgs named name :
  registerSpanner pkgs ∅ !! named = Some name →
  ∃ pre pkg rest,
    pkgs = pre ++ pkg :: rest ∧
    Forall (λ p, types.Path p ≠ "cloud.google.com/go/spanner") pre ∧
    types.Path pkg = "cloud.google.com/go/spanner" ∧
    types.Scope pkg !! name = Some (types.Named named) ∧
    registeredName name.
Proof.
  intros Hl.
  destruct (first_spanner_package pkgs) as [Hnone | (pre & pkg & rest & -> & Hpre & Hpath)].
  - rewrite (registerSpanner_not_imported pkgs ∅ Hnone), lookup_empty in Hl. discriminate.
  - exists pre, pkg, rest. split; [reflexivity | split; [exact Hpre | split; [exact Hpath|]]].
    rewrite (registerSpanner_first pre pkg rest ∅ Hpre Hpath) in Hl.
    unfold registeredName.
    apply registerType_lookup in Hl as [[Hs ->] | [_ Hl]]; [split; [exact Hs | tauto]|].
    apply registerType_lookup in Hl as [[Hs ->] | [_ Hl]]; [split; [exact Hs | tauto]|].
    apply registerType_lookup in Hl as [[Hs ->] | [_ Hl]]; [split; [exact Hs | tauto]|].
    rewrite lookup_empty in Hl. discriminate.
Qed.

Lemma registry_holds_only_spanner_types_witness :
  ∃ pre pkg rest,
    [Fixture.contextPkg; Fixture.spannerPkg] = pre ++ pkg :: rest ∧
    Forall (λ p, types.Path p ≠ "cloud.google.com/go/spanner") pre ∧
    types.Path pkg = "cloud.google.com/go/spanner" ∧
    types.Scope pkg !! "BatchReadOnlyTransaction" = Some (types.Named 2) ∧
    registeredName "BatchReadOnlyTransaction".
Proof.
  apply (registry_holds_only_spanner_types [Fixture.contextPkg; Fixture.spannerPkg]
           2%nat "BatchReadOnlyTransaction").
  reflexivity.
Defined.

(** X3: the registration loop ends at the first package with the Spanner
    path: the packages after it, another package with the same path
    included, do not change the registry. *)
Theorem registration_stops_at_first_spanner_package pre pkg rest spannerTypes :
  Forall (λ p, types.Path p ≠ "cloud.google.com/go/spanner") pre →
  types.Path pkg = "cloud.google.com/go/spanner" →
  registerSpanner (pre ++ pkg :: rest) spannerTypes =
  registerSpanner [pkg] spannerTypes.
Proof.
  intros Hpre Hpath.
  rewrite (registerSpanner_first pre pkg rest spannerTypes Hpre Hpath).
  symmetry. exact (registerSpanner_first [] pkg [] spannerTypes ltac:(constructor) Hpath).
Qed.

Lemma registration_stops_at_first_spanner_package_witness :
  registerSpanner ([Fixture.contextPkg] ++ Fixture.spannerPkg :: [Sample.vendoredPkg]) ∅ =
  registerSpanner [Fixture.spannerPkg] ∅.
Proof.
  apply (registration_stops_at_first_spanner_package
           [Fixture.contextPkg] Fixture.spannerPkg [Sample.vendoredPkg] ∅).
  - repeat constructor. discriminate.
  - reflexivity.
Defined.

(** X4: registration and lookup agree. When the first Spanner package
    declares one of the three names as a named type that it declares under
    no other of the three names, that type is in the registry under that
    name, and a pointer to it is looked up under that name. *)
Theorem registered_type_is_found pre pkg rest name named :
  Forall (λ p, types.Path p ≠ "cloud.google.com/go/spanner") pre →
  types.Path pkg = "cloud.google.com/go/spanner" →
  registeredName name →
  types.Scope pkg !! name = Some (types.Named named) →
  (∀ name', registeredName name' →
            types.Scope pkg !! name' = Some (types.Named named) → name' = name) →
  registerSpanner (pre ++ pkg :: rest) ∅ !! named = Some name ∧
  getSpannerType (types.Pointer (types.Named named))
                 (registerSpanner (pre ++ pkg :: rest) ∅) = name.
Proof.
  intros Hpre Hpath Hname Hscope Honly.
  assert (Hl : registerSpanner (pre ++ pkg :: rest) ∅ !! named = Some name).
  { rewrite (registerSpanner_first pre pkg rest ∅ Hpre Hpath).
    assert (Hstep : ∀ nm m, registeredName nm →
              (nm = name ∨ m !! named = Some name) →
              registerType pkg nm m !! named = Some name).
    { intros nm m Hnm Hcase. apply registerType_lookup.
      assert (Hdec : types.Scope pkg !! nm = Some (types.Named named) ∨
                     types.Scope pkg !! nm ≠ Some (types.Named named)).
      { destruct (types.Scope pkg !! nm) as [[named'| |]|];
          try (right; discriminate).
        destruct (decide (named' = named)) as [-> | Hne];
          [left; reflexivity | right; congruence]. }
      destruct Hdec as [Hs | Hs].
      - left. split; [exact Hs | symmetry; apply Honly; assumption].
      - right. split; [exact Hs|]. destruct Hcase as [-> | Hm]; [contradiction | exact Hm]. }
    unfold registeredName in Hname.
    destruct Hname as [-> | [-> | ->]].
    - apply Hstep; [unfold registeredName; tauto | right].
      apply Hstep; [unfold registeredName; tauto | right].
      apply Hstep; [unfold registeredName; tauto | left; reflexivity].
    - apply Hstep; [unfold registeredName; tauto | right].
      apply Hstep; [unfold registeredName; tauto | left; reflexivity].
    - apply Hstep; [unfold registeredName; tauto | left; reflexivity]. }
  split; [exact Hl|]. unfold getSpannerType. rewrite Hl. reflexivity.
Qed.

Lemma registered_type_is_found_witness :
  registerSpanner ([Fixture.contextPkg] ++ Fixture.spannerPkg :: [Sample.vendoredPkg]) ∅
    !! 3%nat = Some "RowIterator" ∧
  getSpannerType (types.Pointer (types.Named 3))
    (registerSpanner ([Fixture.contextPkg] ++ Fixture.spannerPkg :: [Sample.vendoredPkg]) ∅)
  = "RowIterator".
Proof.
  apply (registered_type_is_found [Fixture.contextPkg] Fixture.spannerPkg
           [Sample.vendoredPkg] "RowIterator" 3%nat).
  - repeat constructor. discriminate.
  - reflexivity.
  - right. right. reflexivity.
  - reflexivity.
  - intros name' [-> | [-> | ->]] H; [discriminate H | discriminate H | reflexivity].
Defined.

(** ** What is reported, and only that *)

Lemma getSpannerType_empty t : getSpannerType t ∅ = "".
Proof. destruct t as [named|[named|elem|]|]; reflexivity. Qed.

Lemma checkInstr_elem pass h fn spannerTypes instr d :
  d ∈ checkInstr pass h fn spannerTypes instr [] ↔
  ∃ typeName,
    candidate h spannerTypes instr typeName ∧
    ¬ exempt h fn instr typeName ∧
    hasDeferredClose h instr = false ∧
    hasNolintDirective pass (reportPos h instr) = false ∧
    d = {| analysis.Pos := reportPos h instr;
           analysis.Message := typeName ++ ".Close() must be deferred" |}.
Proof.
  split.
  - intros Hin. unfold checkInstr in Hin.
    destruct (ssa.asValue (h instr)) as [v|] eqn:Hv; [|inversion Hin].
    remember (getSpannerType (ssa.VType v) spannerTypes) as typeName eqn:Ht.
    destruct (String.eqb typeName "") eqn:Hne; [inversion Hin|].
    cbn [negb] in Hin.
    destruct (String.eqb typeName "ReadOnlyTransaction" && isFromSingle h instr) eqn:E1;
      [inversion Hin|].
    destruct (String.eqb typeName "RowIterator" && isReturnedFromFunction h fn instr) eqn:E2;
      [inversion Hin|].
    destruct (hasDeferredClose h instr) eqn:Hc; [inversion Hin|].
    destruct (hasNolintDirective pass (reportPos h instr)) eqn:Hs; [inversion Hin|].
    cbn [negb analysis.Report app] in Hin. apply list_elem_of_singleton in Hin.
    exists typeName. split; [|split; [|split; [reflexivity | split; [reflexivity | exact Hin]]]].
    + exists v. split; [exact Hv | split; [congruence|]]. apply String.eqb_neq, Hne.
    + intros [[Hn Hx] | [Hn Hx]].
      * apply String.eqb_eq in Hn. rewrite Hn, Hx in E1. discriminate.
      * apply String.eqb_eq in Hn. rewrite Hn, Hx in E2. discriminate.
  - intros (typeName & Hcand & Hex & Hc & Hs & ->).
    rewrite (checkInstr_reports pass h fn spannerTypes instr typeName [] Hcand Hex Hc Hs).
    cbn [app]. apply list_elem_of_singleton. reflexivity.
Qed.

Lemma elem_of_flat_map {A B} (f : A → list B) (l : list A) (y : B) :
  y ∈ flat_map f l ↔ ∃ x, x ∈ l ∧ y ∈ f x.
Proof.
  rewrite list_elem_of_In, in_flat_map. split; intros (x & Hx & Hy); exists x;
    (split; [apply list_elem_of_In, Hx | apply list_elem_of_In, Hy]).
Qed.

Lemma checkFunc_elem pass h ofn spannerTypes d :
  d ∈ checkFunc pass h ofn spannerTypes [] ↔
  ∃ fn instr,
    ofn = Some fn ∧ isGeneratedFile pass (ssa.FPos fn) = false ∧
    instr ∈ instrsOf fn ∧ d ∈ checkInstr pass h fn spannerTypes instr [].
Proof.
  destruct ofn as [fn|].
  - destruct (isGeneratedFile pass (ssa.FPos fn)) eqn:Hg.
    + rewrite checkFunc_skipped by exact Hg. split; [intros H; inversion H|].
      intros (fn' & instr & E & Hg' & _). injection E as <-. congruence.
    + rewrite checkFunc_scan by exact Hg. cbn [app]. rewrite elem_of_flat_map. split.
      * intros (instr & Hi & Hd). exists fn, instr. repeat split; assumption.
      * intros (fn' & instr & E & _ & Hi & Hd). injection E as <-. exists instr.
        split; assumption.
  - simpl. split; [intros H; inversion H | intros (fn & instr & E & _); discriminate E].
Qed.

Lemma deferOnlyAnalyzer_reported_cases pass h :
  reported (deferOnlyAnalyzer pass h) =
  flat_map (λ fn, checkFunc pass h fn
                    (registerSpanner (ssa.AllPackages (analysis.ResultOf_buildssa pass)) ∅) [])
           (if Nat.eqb (size (registerSpanner
                                (ssa.AllPackages (analysis.ResultOf_buildssa pass)) ∅)) 0
            then [] else ssa.SrcFuncs (analysis.ResultOf_buildssa pass)).
Proof.
  destruct (Nat.eqb _ 0) eqn:E.
  - unfold deferOnlyAnalyzer. rewrite E. reflexivity.
  - apply deferOnlyAnalyzer_reported. intros Hempty.
    rewrite Hempty, map_size_empty in E. discriminate.
Qed.

(** X5: the findings of the analyzer, exactly. A diagnostic is reported if
    and only if it is the diagnostic of an instruction of a source function
    that is not skipped, the instruction being a candidate that is not
    exempt, not covered and not silenced at its reported position. *)
Theorem reported_exactly pass h d :
  d ∈ reported (deferOnlyAnalyzer pass h) ↔
  ∃ fn instr typeName,
    Some fn ∈ ssa.SrcFuncs (analysis.ResultOf_buildssa pass) ∧
    isGeneratedFile pass (ssa.FPos fn) = false ∧
    instr ∈ instrsOf fn ∧
    candidate h (registerSpanner (ssa.AllPackages (analysis.ResultOf_buildssa pass)) ∅)
              instr typeName ∧
    ¬ exempt h fn instr typeName ∧
    hasDeferredClose h instr = false ∧
    hasNolintDirective pass (reportPos h instr) = false ∧
    d = {| analysis.Pos := reportPos h instr;
           analysis.Message := typeName ++ ".Close() must be deferred" |}.
Proof.
  rewrite deferOnlyAnalyzer_reported_cases, elem_of_flat_map.
  set (spannerTypes := registerSpanner _ ∅). split.
  - intros (ofn & Hin & Hd).
    apply checkFunc_elem in Hd as (fn & instr & -> & Hg & Hi & Hd).
    apply checkInstr_elem in Hd as (typeName & Hcand & Hex & Hc & Hs & ->).
    exists fn, instr, typeName. destruct (Nat.eqb (size spannerTypes) 0); [inversion Hin|].
    repeat split; assumption.
  - intros (fn & instr & typeName & Hin & Hg & Hi & Hcand & Hex & Hc & Hs & ->).
    exists (Some fn). split.
    + destruct (Nat.eqb (size spannerTypes) 0) eqn:E; [|exact Hin].
      apply Nat.eqb_eq, map_size_empty_iff in E.
      destruct Hcand as (v & _ & Ht & Hne). rewrite E, getSpannerType_empty in Ht.
      congruence.
    + apply checkFunc_elem. exists fn, instr. repeat split; try assumption.
      apply checkInstr_elem. exists typeName. repeat split; assumption.
Qed.

Lemma checkInstr_length pass h fn spannerTypes instr :
  (length (checkInstr pass h fn spannerTypes instr []) ≤ 1)%nat.
Proof.
  unfold checkInstr, analysis.Report.
  repeat match goal with
         | |- context [match ?x with _ => _ end] => destruct x
         end; simpl; lia.
Qed.

(** X6: a function receives at most one diagnostic per instruction, and
    none when it is skipped or has no instruction. *)
Theorem at_most_one_finding_per_instruction pass h fn spannerTypes :
  (length (checkFunc pass h (Some fn) spannerTypes []) ≤ length (instrsOf fn))%nat.
Proof.
  destruct (isGeneratedFile pass (ssa.FPos fn)) eqn:Hg.
  - rewrite checkFunc_skipped by exact Hg. simpl. lia.
  - rewrite checkFunc_scan by exact Hg. cbn [app].
    induction (instrsOf fn) as [|i rest IH]; [simpl; lia|].
    cbn [flat_map]. rewrite length_app. cbn [length].
    pose proof (checkInstr_length pass h fn spannerTypes i). lia.
Qed.

(** X7: functions are analyzed one by one and independently: the findings
    for two lists of source functions put together are the findings for the
    first list followed by those for the second. *)
Theorem findings_of_functions_concatenate pass h fns1 fns2 :
  reported (deferOnlyAnalyzer (withSrcFuncs pass (fns1 ++ fns2)) h) =
  reported (deferOnlyAnalyzer (withSrcFuncs pass fns1) h) ++
  reported (deferOnlyAnalyzer (withSrcFuncs pass fns2) h).
Proof.
  rewrite !deferOnlyAnalyzer_reported_cases. cbn [withSrcFuncs analysis.ResultOf_buildssa
    ssa.AllPackages ssa.SrcFuncs].
  destruct (Nat.eqb _ 0); [reflexivity|].
  rewrite flat_map_app. reflexivity.
Qed.

(** ** Files that are skipped *)

(** X8: a position lies in a skipped file exactly when a file is found for
    it and the name of that file ends in .yo.go, .pb.go or _gen.go, or
    contains the word generated anywhere (in a directory name too), or the
    file carries a file-level directive. *)
Theorem isGeneratedFile_exactly pass pos :
  isGeneratedFile pass pos = true ↔
  ∃ file,
    token.File (analysis.Fset pass) pos = Some file ∧
    ((∃ pre, token.Name (analysis.Fset pass) file = (pre ++ ".yo.go")%string) ∨
     (∃ pre, token.Name (analysis.Fset pass) file = (pre ++ ".pb.go")%string) ∨
     (∃ pre, token.Name (analysis.Fset pass) file = (pre ++ "_gen.go")%string) ∨
     (∃ pre post,
        token.Name (analysis.Fset pass) file = (pre ++ "generated" ++ post)%string) ∨
     hasFileLevelNolint pass pos = true).
Proof.
  unfold isGeneratedFile.
  destruct (token.File (analysis.Fset pass) pos) as [file|] eqn:Ef.
  - set (name := token.Name (analysis.Fset pass) file).
    pose proof (HasSuffix_true name ".yo.go") as Hyo.
    pose proof (HasSuffix_true name ".pb.go") as Hpb.
    pose proof (HasSuffix_true name "_gen.go") as Hgen.
    pose proof (Contains_true name "generated") as Hword.
    split.
    + intros H. exists file. split; [reflexivity|].
      destruct (strings.HasSuffix name ".yo.go"); [left; apply Hyo; reflexivity|].
      destruct (strings.HasSuffix name ".pb.go"); [right; left; apply Hpb; reflexivity|].
      destruct (strings.HasSuffix name "_gen.go");
        [right; right; left; apply Hgen; reflexivity|].
      destruct (strings.Contains name "generated");
        [right; right; right; left; apply Hword; reflexivity|].
      destruct (hasFileLevelNolint pass pos); [tauto | discriminate].
    + intros (file' & E & H). injection E as <-.
      destruct (strings.HasSuffix name ".yo.go"); [reflexivity|].
      destruct (strings.HasSuffix name ".pb.go"); [reflexivity|].
      destruct (strings.HasSuffix name "_gen.go"); [reflexivity|].
      destruct (strings.Contains name "generated"); [reflexivity|].
      destruct (hasFileLevelNolint pass pos); [reflexivity|].
      destruct H as [H | [H | [H | [H | H]]]];
        [apply Hyo in H | apply Hpb in H | apply Hgen in H | apply Hword in H | ];
        discriminate H.
  - split; [discriminate | intros (file & E & _); discriminate E].
Qed.

Lemma hasFileLevelNolint_groups_true fset file cgs :
  hasFileLevelNolint_groups fset file cgs = true ↔
  ∃ before cg after,
    cgs = before ++ cg :: after ∧
    Forall (λ g, (token.Line fset file (ast.cgPos g) ≤ 10)%nat) before ∧
    (token.Line fset file (ast.cgPos cg) ≤ 10)%nat ∧
    anyComment fileLevelDirective (ast.List cg) = true.
Proof.
  split.
  - induction cgs as [|g rest IH]; cbn [hasFileLevelNolint_groups]; [discriminate|].
    destruct (10 <? token.Line fset file (ast.cgPos g))%nat eqn:El; [discriminate|].
    apply Nat.ltb_ge in El.
    destruct (anyComment fileLevelDirective (ast.List g)) eqn:Ea.
    + intros _. exists [], g, rest. split; [reflexivity | split; [constructor | split; assumption]].
    + intros (before & cg & after & -> & Hb & Hl & Hany)%IH.
      exists (g :: before), cg, after.
      split; [reflexivity | split; [constructor; assumption | split; assumption]].
  - intros (before & cg & after & -> & Hb & Hl & Hany).
    apply hasFileLevelNolint_groups_hit; assumption.
Qed.

Lemma hasFileLevelNolint_files_true fset file fs :
  hasFileLevelNolint_files fset file fs = true ↔
  ∃ f, f ∈ fs ∧ token.File fset (ast.Pos f) = Some file ∧
       hasFileLevelNolint_groups fset file (ast.Comments f) = true.
Proof.
  split.
  - induction fs as [|f rest IH]; cbn [hasFileLevelNolint_files]; [discriminate|].
    assert (Hrest : hasFileLevelNolint_files fset file rest = true →
                    ∃ f0, f0 ∈ f :: rest ∧ token.File fset (ast.Pos f0) = Some file ∧
                          hasFileLevelNolint_groups fset file (ast.Comments f0) = true).
    { intros (f0 & Hin & Hf & Hg)%IH. exists f0. split; [right; exact Hin | split; assumption]. }
    destruct (token.File fset (ast.Pos f)) as [file'|] eqn:Ef; [|exact Hrest].
    destruct (Nat.eqb file' file) eqn:Ee; [|exact Hrest].
    apply Nat.eqb_eq in Ee as ->.
    destruct (hasFileLevelNolint_groups fset file (ast.Comments f)) eqn:Eg; [|exact Hrest].
    intros _. exists f. split; [left | split; assumption].
  - intros (f & Hin & Hf & Hg). apply (hasFileLevelNolint_files_hit _ _ _ f); assumption.
Qed.

(** X9: a file carries a file-level directive exactly when one of its
    comment groups starts within the first ten lines, no group listed before
    it starts later, and one comment of the group contains the targeted or
    the all-tools token. A bare nolint is no file-level directive, and the
    line that counts is the one the group starts on, not the line of the
    comment that holds the token. *)
Theorem hasFileLevelNolint_exactly pass pos :
  hasFileLevelNolint pass pos = true ↔
  ∃ file f before cg after c,
    token.File (analysis.Fset pass) pos = Some file ∧
    f ∈ analysis.Files pass ∧
    token.File (analysis.Fset pass) (ast.Pos f) = Some file ∧
    ast.Comments f = before ++ cg :: after ∧
    Forall (λ g, (token.Line (analysis.Fset pass) file (ast.cgPos g) ≤ 10)%nat) before ∧
    (token.Line (analysis.Fset pass) file (ast.cgPos cg) ≤ 10)%nat ∧
    c ∈ ast.List cg ∧
    (strings.Contains (ast.Text c) "nolint:spannerclosecheck" = true ∨
     strings.Contains (ast.Text c) "nolint:all" = true).
Proof.
  unfold hasFileLevelNolint.
  destruct (token.File (analysis.Fset pass) pos) as [file|] eqn:Ef.
  - rewrite hasFileLevelNolint_files_true. split.
    + intros (f & Hin & Hf & Hg).
      apply hasFileLevelNolint_groups_true in Hg as (before & cg & after & E & Hb & Hl & Hany).
      apply anyComment_true in Hany as (c & Hc & Ht).
      exists file, f, before, cg, after, c.
      unfold fileLevelDirective in Ht. apply orb_true_iff in Ht.
      repeat split; assumption.
    + intros (file' & f & before & cg & after & c & E & Hin & Hf & Hcs & Hb & Hl & Hc & Ht).
      injection E as <-. exists f. split; [exact Hin | split; [exact Hf|]].
      apply hasFileLevelNolint_groups_true. exists before, cg, after.
      split; [exact Hcs | split; [exact Hb | split; [exact Hl|]]].
      apply anyComment_true. exists c. split; [exact Hc|].
      unfold fileLevelDirective. apply orb_true_iff. exact Ht.
  - split; [discriminate|].
    intros (file & f & before & cg & after & c & E & _). discriminate E.
Qed.

(** ** Directives that are not recognised *)

Lemma hasFileLevelNolint_groups_none fset file cgs :
  (∀ cg c, cg ∈ cgs → c ∈ ast.List cg → fileLevelDirective (ast.Text c) = false) →
  hasFileLevelNolint_groups fset file cgs = false.
Proof.
  intros Hnone. destruct (hasFileLevelNolint_groups fset file cgs) eqn:E; [|reflexivity].
  apply hasFileLevelNolint_groups_true in E as (before & cg & after & -> & _ & _ & Hany).
  apply anyComment_true in Hany as (c & Hc & Ht).
  rewrite (Hnone cg c) in Ht; [discriminate | | exact Hc].
  apply elem_of_app. right. left.
Qed.

(** X10: comments that name another linter after the colon, or misspell
    this one, are not directives: when every comment of the pass has a colon
    and neither the targeted nor the all-tools token, no position is
    silenced and no file is skipped for its comments. *)
Theorem other_directives_are_ignored pass pos :
  (∀ f cg c, f ∈ analysis.Files pass → cg ∈ ast.Comments f → c ∈ ast.List cg →
     strings.Contains (ast.Text c) ":" = true ∧
     strings.Contains (ast.Text c) "nolint:spannerclosecheck" = false ∧
     strings.Contains (ast.Text c) "nolint:all" = false) →
  hasNolintDirective pass pos = false ∧ hasFileLevelNolint pass pos = false.
Proof.
  intros Hall. split.
  - destruct (hasNolintDirective pass pos) eqn:E; [|reflexivity].
    unfold hasNolintDirective in E.
    destruct (token.File (analysis.Fset pass) pos) as [file|]; [|discriminate].
    apply hasNolintDirective_files_true in E as (f & cg & Hf & _ & Hcg & _ & c & Hc & Ht).
    destruct (Hall f cg c Hf Hcg Hc) as (Hcolon & Ht1 & Ht2).
    unfold nolintDirective in Ht. rewrite Hcolon, Ht1, Ht2, andb_false_r in Ht.
    discriminate.
  - destruct (hasFileLevelNolint pass pos) eqn:E; [|reflexivity].
    unfold hasFileLevelNolint in E.
    destruct (token.File (analysis.Fset pass) pos) as [file|]; [|discriminate].
    apply hasFileLevelNolint_files_true in E as (f & Hf & _ & Hg).
    rewrite hasFileLevelNolint_groups_none in Hg; [discriminate|].
    intros cg c Hcg Hc. destruct (Hall f cg c Hf Hcg Hc) as (_ & Ht1 & Ht2).
    unfold fileLevelDirective. rewrite Ht1, Ht2. reflexivity.
Qed.

Lemma other_directives_are_ignored_witness :
  hasNolintDirective Sample.passOtherLinter 2413%Z = false ∧
  hasFileLevelNolint Sample.passOtherLinter 2413%Z = false.
Proof.
  apply (other_directives_are_ignored Sample.passOtherLinter 2413%Z).
  intros f cg c Hf Hcg Hc.
  apply list_elem_of_singleton in Hf as ->.
  cbn [ast.Comments] in Hcg.
  apply elem_of_cons in Hcg as [-> | Hcg]; [|apply list_elem_of_singleton in Hcg as ->];
    apply list_elem_of_singleton in Hc as ->; repeat split; reflexivity.
Defined.

Example misspelt_directive_does_not_silence :
  reported (deferOnlyAnalyzer Sample.passOtherLinter Fixture.hLeak) =
  [{| analysis.Pos := 2413%Z; analysis.Message := "RowIterator.Close() must be deferred" |}].
Proof. reflexivity. Qed.

(** ** The exemptions, exactly *)

(** X11: [isFromSingle] holds of a value exactly when the value is itself a
    call whose invoked method is named Single, or whose called value is
    named Single. The name alone decides: the receiver and the package of
    the function are not looked at, and nothing but a call qualifies. *)
Theorem isFromSingle_exactly h val :
  isFromSingle h val = true ↔
  ∃ v c, h val = ssa.Call v c ∧
         (ssa.Method c = Some "Single" ∨
          ∃ f fv, ssa.CValue c = Some f ∧ ssa.asValue (h f) = Some fv ∧
                  ssa.VName fv = "Single").
Proof.
  unfold isFromSingle. split.
  - destruct (h val) as [v c|v t i|v|c p|rs p|ops p|v] eqn:E; try discriminate.
    intros H. exists v, c. split; [reflexivity|].
    destruct (ssa.Method c) as [m|] eqn:Em.
    + destruct (String.eqb m "Single") eqn:Es.
      * apply String.eqb_eq in Es as ->. left. reflexivity.
      * right. destruct (ssa.CValue c) as [f|]; [|discriminate].
        destruct (ssa.asValue (h f)) as [fv|] eqn:Ef; [|discriminate].
        apply String.eqb_eq in H. exists f, fv. repeat split; assumption.
    + right. destruct (ssa.CValue c) as [f|]; [|discriminate].
      destruct (ssa.asValue (h f)) as [fv|] eqn:Ef; [|discriminate].
      apply String.eqb_eq in H. exists f, fv. repeat split; assumption.
  - intros (v & c & -> & [Hm | (f & fv & Hf & Hfv & Hn)]).
    + rewrite Hm. reflexivity.
    + destruct (ssa.Method c) as [m|]; [destruct (String.eqb m "Single"); [reflexivity|]|];
        rewrite Hf, Hfv, Hn; reflexivity.
Qed.

(** X12: [isReturnedFromFunction] holds of a value exactly when one of its
    use sites is a return instruction that lists the value itself among its
    results. A value returned through a copy, a conversion or a variable is
    not recognised, and the function passed in plays no part. *)
Theorem isReturnedFromFunction_exactly h fn val :
  isReturnedFromFunction h fn val = true ↔
  ∃ ref results pos,
    ref ∈ useSites h val ∧ h ref = ssa.Return results pos ∧ val ∈ results.
Proof.
  rewrite isReturnedFromFunction_useSites. apply isReturned_refs_true.
Qed.

(** ** The message and the descriptor table *)

Lemma spannerResourceTypes_lookup typeName rt :
  spannerResourceTypes !! typeName = Some rt ↔
  (typeName = "ReadOnlyTransaction" ∧
   rt = {| Name := "ReadOnlyTransaction"; CloseMethod := "Close" |}) ∨
  (typeName = "BatchReadOnlyTransaction" ∧
   rt = {| Name := "BatchReadOnlyTransaction"; CloseMethod := "Close" |}) ∨
  (typeName = "RowIterator" ∧
   rt = {| Name := "RowIterator"; CloseMethod := "Stop" |}).
Proof.
  unfold spannerResourceTypes.
  rewrite !lookup_insert_Some, lookup_empty. split.
  - intros [[<- <-] | [_ [[<- <-] | [_ [[<- <-] | [_ H]]]]]];
      [tauto | tauto | tauto | discriminate H].
  - intros [[-> ->] | [[-> ->] | [-> ->]]].
    + left. split; reflexivity.
    + right. split; [discriminate|]. left. split; reflexivity.
    + right. split; [discriminate|]. right. split; [discriminate|].
      left. split; reflexivity.
Qed.

Lemma registerSpanner_names pkgs named name :
  registerSpanner pkgs ∅ !! named = Some name → registeredName name.
Proof.
  intros Hl.
  destruct (first_spanner_package pkgs) as [Hnone | (pre & pkg & rest & -> & Hpre & Hpath)].
  - rewrite (registerSpanner_not_imported pkgs ∅ Hnone), lookup_empty in Hl. discriminate.
  - rewrite (registerSpanner_first pre pkg rest ∅ Hpre Hpath) in Hl.
    unfold registeredName.
    apply registerType_lookup in Hl as [[_ ->] | [_ Hl]]; [tauto|].
    apply registerType_lookup in Hl as [[_ ->] | [_ Hl]]; [tauto|].
    apply registerType_lookup in Hl as [[_ ->] | [_ Hl]]; [tauto|].
    rewrite lookup_empty in Hl. discriminate.
Qed.

Lemma getSpannerType_lookup t spannerTypes name :
  getSpannerType t spannerTypes = name → name ≠ "" →
  ∃ named, spannerTypes !! named = Some name.
Proof.
  unfold getSpannerType. intros Hg Hne.
  destruct t as [named|[named|elem|]|]; try congruence;
    (destruct (spannerTypes !! named) as [name'|] eqn:E; [|congruence]);
    exists named; congruence.
Qed.

(** X13: every diagnostic the analyzer reports carries the message that
    [checkFunc] builds from the registered name of a descriptor of the
    table, with Close written in; that message is the message of the
    descriptor's own template exactly when the cleanup method of the
    descriptor is Close. The two agree on the transaction types and differ
    on the iterator. *)
Theorem message_is_template_iff_close pass h d :
  d ∈ reported (deferOnlyAnalyzer pass h) →
  ∃ rt,
    spannerResourceTypes !! Name rt = Some rt ∧
    analysis.Message d = (Name rt ++ ".Close() must be deferred")%string ∧
    (analysis.Message d = CloseMessage rt ↔ CloseMethod rt = "Close").
Proof.
  intros Hin.
  rewrite deferOnlyAnalyzer_reported_cases, elem_of_flat_map in Hin.
  destruct Hin as (ofn & _ & Hd).
  apply checkFunc_elem in Hd as (fn & instr & _ & _ & _ & Hd).
  apply checkInstr_elem in Hd as (typeName & (v & _ & Ht & Hne) & _ & _ & _ & ->).
  destruct (getSpannerType_lookup _ _ _ Ht Hne) as (named & Hl).
  apply registerSpanner_names in Hl as [-> | [-> | ->]].
  - exists {| Name := "ReadOnlyTransaction"; CloseMethod := "Close" |}.
    split; [reflexivity | split; [reflexivity | split; reflexivity]].
  - exists {| Name := "BatchReadOnlyTransaction"; CloseMethod := "Close" |}.
    split; [reflexivity | split; [reflexivity | split; reflexivity]].
  - exists {| Name := "RowIterator"; CloseMethod := "Stop" |}.
    split; [reflexivity | split; [reflexivity | split; intros H; discriminate H]].
Qed.

Lemma message_is_template_iff_close_witness :
  ∃ rt,
    spannerResourceTypes !! Name rt = Some rt ∧
    analysis.Message
      {| analysis.Pos := 2423%Z;
         analysis.Message := "BatchReadOnlyTransaction.Close() must be deferred" |} =
      (Name rt ++ ".Close() must be deferred")%string ∧
    (analysis.Message
       {| analysis.Pos := 2423%Z;
          analysis.Message := "BatchReadOnlyTransaction.Close() must be deferred" |} =
       CloseMessage rt ↔ CloseMethod rt = "Close").
Proof.
  apply (message_is_template_iff_close (Fixture.passPlain [Fixture.fnTuple]) Fixture.hTuple
           {| analysis.Pos := 2423%Z;
              analysis.Message := "BatchReadOnlyTransaction.Close() must be deferred" |}).
  vm_compute. left.
Defined.

(** ** The command *)

(** X14: the command prints its version and leaves with status 0, without
    running the checker, exactly when one of its arguments, the program name
    included, is -version or --version as a whole; in every other case it
    hands over to the checker. What is printed does not depend on the
    arguments. *)
Theorem version_flag_exactly osArgs :
  (cmd.main osArgs =
     cmd.Exit ("spannerclosecheck v0.1.0" ++ cmd.newline ++
               "Build date: unknown" ++ cmd.newline ++
               "Git commit: unknown" ++ cmd.newline) 0 ↔
   ∃ arg, arg ∈ osArgs ∧ (arg = "-version" ∨ arg = "--version")) ∧
  (cmd.main osArgs = cmd.SingleChecker ↔
   ∀ arg, arg ∈ osArgs → arg ≠ "-version" ∧ arg ≠ "--version").
Proof.
  unfold cmd.main. induction osArgs as [|arg rest [IH1 IH2]]; cbn [cmd.main_args].
  - split.
    + split; [discriminate | intros (arg & H & _); inversion H].
    + split; [intros _ arg H; inversion H | reflexivity].
  - destruct (String.eqb arg "-version" || String.eqb arg "--version") eqn:E.
    + rewrite orb_true_iff, !String.eqb_eq in E. split.
      * split; [intros _ | reflexivity]. exists arg. split; [left | exact E].
      * split; [discriminate|]. intros H. destruct (H arg ltac:(left)) as [H1 H2].
        destruct E; contradiction.
    + assert (Hne : arg ≠ "-version" ∧ arg ≠ "--version").
      { apply orb_false_iff in E as [E1 E2].
        split; apply String.eqb_neq; assumption. }
      split.
      * rewrite IH1. split.
        -- intros (a & Ha & Hv). exists a. split; [right; exact Ha | exact Hv].
        -- intros (a & Ha & Hv). apply elem_of_cons in Ha as [-> | Ha].
           ++ destruct Hne, Hv; contradiction.
           ++ exists a. split; assumption.
      * rewrite IH2. split.
        -- intros H a Ha. apply elem_of_cons in Ha as [-> | Ha]; [exact Hne | apply H, Ha].
        -- intros H a Ha. apply H. right. exact Ha.
Qed.

(** * Properties of the earlier analyzer *)

Lemma fold_left_concat {A B} (f : A → B → A) (ls : list (list B)) (a : A) :
  fold_left (λ a l, fold_left f l a) ls a = fold_left f (concat ls) a.
Proof.
  revert a. induction ls as [|l ls IH]; intros a; simpl; [reflexivity|].
  rewrite fold_left_app. apply IH.
Qed.

Lemma isDeferredVar_insert deferredVars a k :
  legacy.isDeferredVar (<[a := true]> deferredVars) k = true ↔
  k = a ∨ legacy.isDeferredVar deferredVars k = true.
Proof.
  unfold legacy.isDeferredVar. destruct (decide (a = k)) as [-> | Hne].
  - rewrite lookup_insert_eq. simpl. tauto.
  - rewrite lookup_insert_ne by exact Hne. split; [tauto|].
    intros [-> | H]; [contradiction | exact H].
Qed.

Lemma collectDeferred_marks h instr deferredVars k :
  legacy.isDeferredVar (legacy.collectDeferred h instr deferredVars) k = true ↔
  legacy.isDeferredVar deferredVars k = true ∨ marksDeferred h instr k.
Proof.
  unfold legacy.collectDeferred, marksDeferred.
  destruct (h instr) as [v c|v t i|v x|v|call p|a w p|p|v] eqn:E;
    try (split; [tauto | intros [H | (c0 & p0 & m0 & v0 & H & _)]; [exact H | discriminate H]]).
  destruct (ssa.Method call) as [m|] eqn:Em.
  2:{ split; [tauto|]. intros [H | (c0 & p0 & m0 & v0 & H & Hm & _)]; [exact H|].
      injection H as <- <-. congruence. }
  destruct (String.eqb m "Close" || String.eqb m "Stop") eqn:Ecs.
  2:{ split; [tauto|]. intros [H | (c0 & p0 & m0 & v0 & H & Hm & Hcs & _)]; [exact H|].
      injection H as <- <-. rewrite Em in Hm. injection Hm as <-.
      apply closeOrStop_true in Hcs. congruence. }
  apply closeOrStop_true in Ecs.
  destruct (ssa.CValue call) as [value|] eqn:Ev.
  2:{ split; [tauto|]. intros [H | (c0 & p0 & m0 & v0 & H & _ & _ & Hv & _)]; [exact H|].
      injection H as <- <-. congruence. }
  assert (Hmarks : ∀ P : Prop,
            (P ↔ k = value ∨ ∃ v, h value = legacy.UnOp v k) →
            (P ∨ legacy.isDeferredVar deferredVars k = true ↔
             legacy.isDeferredVar deferredVars k = true ∨
             ∃ c0 p0 m0 v0, legacy.Defer call p = legacy.Defer c0 p0 ∧
               ssa.Method c0 = Some m0 ∧ (m0 = "Close" ∨ m0 = "Stop") ∧
               ssa.CValue c0 = Some v0 ∧ (k = v0 ∨ ∃ v, h v0 = legacy.UnOp v k))).
  { intros P HP. split.
    - intros [H | H]; [right | left; exact H].
      exists call, p, m, value. repeat split; try assumption. apply HP, H.
    - intros [H | (c0 & p0 & m0 & v0 & H & _ & _ & Hv & Hk)]; [right; exact H | left].
      injection H as <- <-. rewrite Ev in Hv. injection Hv as <-. apply HP, Hk. }
  destruct (h value) as [v c|v t i|v x|v|c0 p0|a w p0|p0|v] eqn:Eh;
    try (rewrite isDeferredVar_insert; apply Hmarks;
         split; [intros H; left; exact H | intros [H | (v0 & H)]; [exact H | discriminate H]]).
  rewrite !isDeferredVar_insert.
  rewrite <- (Hmarks (k = x ∨ k = value)).
  - tauto.
  - split.
    + intros [-> | ->]; [right; exists v; reflexivity | left; reflexivity].
    + intros [H | (v0 & H)]; [right; exact H | left; congruence].
Qed.

Lemma collectDeferred_fold h instrs deferredVars k :
  legacy.isDeferredVar
    (fold_left (λ dv instr, legacy.collectDeferred h instr dv) instrs deferredVars) k = true ↔
  legacy.isDeferredVar deferredVars k = true ∨
  ∃ instr, instr ∈ instrs ∧ marksDeferred h instr k.
Proof.
  revert deferredVars. induction instrs as [|i rest IH]; intros deferredVars; simpl.
  - split; [tauto | intros [H | (x & Hx & _)]; [exact H | inversion Hx]].
  - rewrite IH, collectDeferred_marks. split.
    + intros [[H | H] | (x & Hx & Hm)].
      * left. exact H.
      * right. exists i. split; [left | exact H].
      * right. exists x. split; [right; exact Hx | exact Hm].
    + intros [H | (x & Hx & Hm)]; [left; left; exact H|].
      apply elem_of_cons in Hx as [-> | Hx]; [left; right; exact Hm|].
      right. exists x. split; assumption.
Qed.

Lemma storedTypeName_is_type_of_value h spannerTypes val :
  legacy.storedTypeName h spannerTypes val =
  match legacy.asValue (h val) with
  | Some v => getSpannerType (ssa.VType v) spannerTypes
  | None => ""
  end.
Proof.
  unfold legacy.storedTypeName.
  destruct (h val) as [v c|v t i|v x|v|c0 p0|a w p0|p0|v]; cbn [legacy.asValue];
    try reflexivity;
    destruct (String.eqb (getSpannerType (ssa.VType v) spannerTypes) "") eqn:E;
    reflexivity.
Qed.

Lemma checkStore_appends h spannerTypes deferredVars instr ds :
  legacy.checkStore h spannerTypes deferredVars instr ds =
  ds ++ legacy.checkStore h spannerTypes deferredVars instr [].
Proof.
  unfold legacy.checkStore, analysis.Report.
  destruct (h instr); rewrite ?app_nil_r; try reflexivity.
  destruct (_ && _); rewrite ?app_nil_r; reflexivity.
Qed.

Lemma checkStore_fold h spannerTypes deferredVars instrs ds :
  fold_left (λ ds instr, legacy.checkStore h spannerTypes deferredVars instr ds) instrs ds =
  ds ++ flat_map (λ instr, legacy.checkStore h spannerTypes deferredVars instr []) instrs.
Proof.
  revert ds. induction instrs as [|i rest IH]; intros ds; simpl.
  - rewrite app_nil_r. reflexivity.
  - rewrite IH, (checkStore_appends _ _ _ _ ds), <- app_assoc. reflexivity.
Qed.

Lemma checkStore_elem h spannerTypes deferredVars instr d :
  d ∈ legacy.checkStore h spannerTypes deferredVars instr [] ↔
  ∃ addr val pos v typeName,
    h instr = legacy.Store addr val pos ∧
    legacy.asValue (h val) = Some v ∧
    getSpannerType (ssa.VType v) spannerTypes = typeName ∧ typeName ≠ "" ∧
    legacy.isDeferredVar deferredVars addr = false ∧
    d = {| analysis.Pos := pos;
           analysis.Message := typeName ++ ".Close() must be deferred" |}.
Proof.
  unfold legacy.checkStore.
  destruct (h instr) as [v c|v t i|v x|v|c0 p0|addr val pos|p0|v] eqn:E;
    try (split; [intros H; inversion H
                | intros (a0 & w0 & q0 & v0 & t0 & H & _); discriminate H]).
  rewrite storedTypeName_is_type_of_value. split.
  - intros Hin.
    destruct (legacy.asValue (h val)) as [v|] eqn:Ev; [|inversion Hin].
    destruct (String.eqb (getSpannerType (ssa.VType v) spannerTypes) "") eqn:Hne;
      [inversion Hin|].
    destruct (legacy.isDeferredVar deferredVars addr) eqn:Hd; [inversion Hin|].
    cbn [negb andb analysis.Report app] in Hin. apply list_elem_of_singleton in Hin.
    exists addr, val, pos, v, (getSpannerType (ssa.VType v) spannerTypes).
    repeat split; try assumption; try reflexivity. apply String.eqb_neq, Hne.
  - intros (a0 & w0 & q0 & v & typeName & H & Hv & Ht & Hne & Hd & ->).
    injection H as <- <- <-. rewrite Hv, Ht, Hd.
    apply String.eqb_neq in Hne. rewrite Hne.
    cbn [negb andb analysis.Report app]. apply list_elem_of_singleton. reflexivity.
Qed.

(** X15: the earlier [checkFunc] returns for every function that is not
    nil, and reports exactly the stores of the function that store a value
    of a registered type (a pointer to it included; the three cases of the
    code come to the type of the stored value) into an address that is not
    closed by a defer. An address is closed by a defer when a deferred
    call of the function, before or after the store, invokes an interface
    method named Close or Stop (the [Method] of the call is set) and has the
    address as its receiver or loads its receiver from it. A deferred call
    of a concrete method has no [Method] and closes nothing, so the store
    it is meant for is reported. The diagnostic is at the store. *)
Theorem earlier_checkFunc_reports_unclosed_stores h fn spannerTypes :
  ∃ ds,
    legacy.checkFunc h (Some fn) spannerTypes [] = Some ds ∧
    ∀ d,
      d ∈ ds ↔
      ∃ instr addr val pos v typeName,
        instr ∈ instrsOf fn ∧
        h instr = legacy.Store addr val pos ∧
        legacy.asValue (h val) = Some v ∧
        getSpannerType (ssa.VType v) spannerTypes = typeName ∧ typeName ≠ "" ∧
        ¬ legacy.closedByDefer h fn addr ∧
        d = {| analysis.Pos := pos;
               analysis.Message := typeName ++ ".Close() must be deferred" |}.
Proof.
  eexists. split; [reflexivity|]. intros d.
  rewrite !fold_left_concat. fold (instrsOf fn).
  set (deferredVars := fold_left _ (instrsOf fn) ∅).
  assert (Hdv : ∀ addr, legacy.isDeferredVar deferredVars addr = false ↔
                        ¬ legacy.closedByDefer h fn addr).
  { intros addr. rewrite <- not_true_iff_false. unfold deferredVars.
    rewrite collectDeferred_fold. unfold legacy.closedByDefer, marksDeferred. split.
    - intros Hn (instr & call & pos & m & value & Hi & E & Hm & Hcs & Hv & Hk).
      apply Hn. right. exists instr. split; [exact Hi|].
      exists call, pos, m, value. repeat split; assumption.
    - intros Hn [H | (instr & Hi & call & pos & m & value & E & Hm & Hcs & Hv & Hk)].
      + unfold legacy.isDeferredVar in H. rewrite lookup_empty in H. discriminate.
      + apply Hn. exists instr, call, pos, m, value. repeat split; assumption. }
  rewrite checkStore_fold. cbn [app]. rewrite elem_of_flat_map. split.
  - intros (instr & Hi & Hd).
    apply checkStore_elem in Hd as (addr & val & pos & v & typeName & E & Hv & Ht & Hne & Hdef & ->).
    exists instr, addr, val, pos, v, typeName.
    repeat split; try assumption. apply Hdv, Hdef.
  - intros (instr & addr & val & pos & v & typeName & Hi & E & Hv & Ht & Hne & Hdef & ->).
    exists instr. split; [exact Hi|]. apply checkStore_elem.
    exists addr, val, pos, v, typeName. repeat split; try assumption. apply Hdv, Hdef.
Qed.

Example earlier_analyzer_reports_store_closed_by_concrete_method :
  legacy.checkFunc Sample.hStoresStatic (Some Sample.fnStoresStatic)
                   Fixture.spannerTypes [] =
  Some [{| analysis.Pos := 2406%Z;
           analysis.Message := "ReadOnlyTransaction.Close() must be deferred" |}].
Proof. reflexivity. Qed.

Example earlier_analyzer_on_stores :
  legacy.checkFunc legacy.hStores (Some legacy.fnStores) Fixture.spannerTypes [] =
  Some [{| analysis.Pos := 2406%Z;
           analysis.Message := "ReadOnlyTransaction.Close() must be deferred" |}].
Proof. reflexivity. Qed.




Example earlier_registry_differs_on_two_packages :
  legacy.registerSpanner [Fixture.spannerPkg; Sample.vendoredPkg] ∅ !! 7%nat =
    Some "RowIterator" ∧
  registerSpanner [Fixture.spannerPkg; Sample.vendoredPkg] ∅ !! 7%nat = None.
Proof. split; reflexivity. Qed.

Lemma legacy_checkFuncs_none h fns spannerTypes ds :
  legacy.checkFuncs h fns spannerTypes ds = None ↔ None ∈ fns.
Proof.
  revert ds. induction fns as [|fn rest IH]; intros ds; cbn [legacy.checkFuncs].
  - split; [discriminate | intros H; inversion H].
  - destruct fn as [fn|]; cbn [legacy.checkFunc].
    + rewrite IH. split; [intros H; right; exact H|].
      intros H. apply elem_of_cons in H as [H | H]; [discriminate H | exact H].
    + split; [intros _; left | reflexivity].
Qed.

(** X17: the earlier analyzer panics exactly when its registry is not
    empty and a nil function is among the source functions: it dereferences
    each function without the nil test the present [checkFunc] begins with.
    With an empty registry it returns before it looks at any function. *)
Theorem earlier_analyzer_panics_on_nil_function pass h :
  legacy.deferOnlyAnalyzer pass h = None ↔
  legacy.registerSpanner (ssa.AllPackages (analysis.ResultOf_buildssa pass)) ∅ ≠ ∅ ∧
  None ∈ ssa.SrcFuncs (analysis.ResultOf_buildssa pass).
Proof.
  unfold legacy.deferOnlyAnalyzer.
  set (spannerTypes := legacy.registerSpanner _ ∅).
  destruct (Nat.eqb (size spannerTypes) 0) eqn:E.
  - apply Nat.eqb_eq, map_size_empty_iff in E.
    split; [discriminate | intros [H _]; contradiction].
  - assert (Hne : spannerTypes ≠ ∅).
    { intros H. rewrite H, map_size_empty in E. discriminate. }
    destruct (legacy.checkFuncs h _ spannerTypes []) as [ds|] eqn:Ec.
    + split; [discriminate|]. intros [_ H].
      apply (legacy_checkFuncs_none h _ spannerTypes []) in H. congruence.
    + split; [intros _ | reflexivity]. split; [exact Hne|].
      apply (legacy_checkFuncs_none h _ spannerTypes []), Ec.
Qed.
